(** * War: the probability of a sweep

    A shallow embedding of the executable cells of [ipynb/war.ipynb]
    (brute-force enumeration and abstract incremental enumeration) and
    the properties of the abstract engine.

    Python integers are embedded as [Z]; probabilities, which the notebook
    keeps as floats, are embedded as exact rationals in canonical form
    ([Qc]); exceptions are embedded as an explicit error result.

    Float arithmetic is embedded by its exact value: rounding is not
    modelled, and neither is the [OverflowError] that the conversion of an
    integer beyond the largest float raises.  The theorems that say that a
    turn returns therefore take as a hypothesis that the token counts stay
    within the float range ([float_max]) and, where masses are arbitrary,
    that they have magnitude at most 1 ([in_float_range]).  The masses of
    a turn are stated by the expression the code evaluates, read over exact
    rationals, as is the comparison with the oracle; the bounds on totals
    that are stated leave a factor of two to the rounding, and the strict
    one is stated away from the subnormal floats ([normal_masses]), where
    the rounding of a turn can keep the whole of a mass. *)

From Stdlib Require Import ZArith QArith Qcanon List Bool Lia Lqa.
From Stdlib Require Import Permutation Sorted Factorial.
Import ListNotations.

Local Open Scope Z_scope.

(** ** Exceptions and fallible results *)

Inductive exn : Type :=
| IndexError
| ZeroDivisionError
| StatisticsError
| ValueError.

Inductive result (A : Type) : Type :=
| Ok (a : A)
| Raise (e : exn).

Arguments Ok {A} a.
Arguments Raise {A} e.

Definition bind {A B : Type} (m : result A) (k : A -> result B) : result B :=
  match m with
  | Ok a => k a
  | Raise e => Raise e
  end.

Notation "x <- m ;; k" := (bind m (fun x => k))
  (at level 61, m at next level, right associativity).

(** [for x in l: acc = body(acc, x)], stopping at the first exception. *)
Fixpoint foldM {A S : Type} (body : S -> A -> result S) (l : list A) (acc : S)
  : result S :=
  match l with
  | [] => Ok acc
  | x :: l' => acc' <- body acc x ;; foldM body l' acc'
  end.

(** A generator expression consumed into a list. *)
Fixpoint mapM {A B : Type} (f : A -> result B) (l : list A) : result (list B) :=
  match l with
  | [] => Ok []
  | x :: l' => y <- f x ;; ys <- mapM f l' ;; Ok (y :: ys)
  end.

(** The builtin [all] over a generator: it stops at the first false item,
    so later items are not evaluated. *)
Fixpoint all_gen {A : Type} (f : A -> result bool) (l : list A) : result bool :=
  match l with
  | [] => Ok true
  | x :: l' => b <- f x ;; if b then all_gen f l' else Ok false
  end.

(** ** Builtins: [range], [len], [sum], indexing, [sorted], [enumerate] *)

Definition len {A : Type} (l : list A) : Z := Z.of_nat (length l).

(** [range(n)]: empty when [n <= 0]. *)
Definition range (n : Z) : list Z := map Z.of_nat (seq 0 (Z.to_nat n)).

(** [range(start, stop, step)] for a positive step. *)
Definition range3 (start stop step : Z) : list Z :=
  map (fun k => start + Z.of_nat k * step)
      (seq 0 (Z.to_nat ((stop - start + step - 1) / step))).

(** [sum(l)] on integers. *)
Definition sum (l : list Z) : Z := fold_left Z.add l 0.

(** [l[i]]: a negative index counts from the end, an index out of range
    raises [IndexError]. *)
Definition getitem (l : list Z) (i : Z) : result Z :=
  let k := if i <? 0 then i + len l else i in
  if k <? 0 then Raise IndexError
  else match nth_error l (Z.to_nat k) with
       | Some x => Ok x
       | None => Raise IndexError
       end.

Fixpoint insert_sorted (x : Z) (l : list Z) : list Z :=
  match l with
  | [] => [x]
  | y :: l' => if x <=? y then x :: l else y :: insert_sorted x l'
  end.

(** [sorted(l)] on integers: the ascending rearrangement of [l]. *)
Definition sorted (l : list Z) : list Z := fold_right insert_sorted [] l.

Definition enumerate {A : Type} (l : list A) : list (Z * A) :=
  combine (range (len l)) l.

(** [indexes.count(i)] *)
Definition count (indexes : list Z) (i : Z) : Z :=
  Z.of_nat (count_occ Z.eq_dec indexes i).

(** ** itertools: [permutations] and [combinations] *)

(** Every way of taking one element out of [l], by position, with the
    elements that remain in their order. *)
Fixpoint picks {A : Type} (l : list A) : list (A * list A) :=
  match l with
  | [] => []
  | x :: l' => (x, l') :: map (fun p => (fst p, x :: snd p)) (picks l')
  end.

Fixpoint perms_of_length {A : Type} (n : nat) (l : list A) : list (list A) :=
  match n with
  | O => [[]]
  | S n' => flat_map (fun p => map (cons (fst p)) (perms_of_length n' (snd p)))
                     (picks l)
  end.

(** [permutations(l)]: all orderings of the positions of [l], in
    lexicographic order of positions. *)
Definition permutations {A : Type} (l : list A) : list (list A) :=
  perms_of_length (length l) l.

(** [combinations(l, r)]: the length-[r] subsequences of [l], in
    lexicographic order of positions. *)
Fixpoint combinations {A : Type} (l : list A) (r : nat) {struct l}
  : list (list A) :=
  match r, l with
  | O, _ => [[]]
  | S _, [] => []
  | S r', x :: l' => map (cons x) (combinations l' r') ++ combinations l' r
  end.

(** ** Approach 2: brute force enumeration *)

Local Open Scope Qc_scope.

Definition Probability := Qc.
Definition Deck := list Z.

(** An integer used in float arithmetic, by its exact value.  (The
    conversion itself raises [OverflowError] beyond [float_max]; see the
    head of the file.) *)
Definition of_int (z : Z) : Qc := Q2Qc (inject_Z z).

(** [make_deck]: [[r + 1 for r in range(ranks) for _ in range(suits)]] *)
Definition make_deck (ranks suits : Z) : Deck :=
  flat_map (fun r => map (fun _ => (r + 1)%Z) (range suits)) (range ranks).

(** [sweep]: [all(deck[i] > deck[i + 1] for i in range(0, len(deck), 2))] *)
Definition sweep (deck : Deck) : result bool :=
  all_gen (fun i => a <- getitem deck i ;;
                    b <- getitem deck (i + 1) ;;
                    Ok (a >? b)%Z)
          (range3 0 (len deck) 2).

(** [statistics.mean]: raises on no data. *)
Definition mean (data : list Qc) : result Qc :=
  match data with
  | [] => Raise StatisticsError
  | _ => Ok (fold_left Qcplus data 0 / of_int (len data))
  end.

Definition of_bool (b : bool) : Qc := if b then 1 else 0.

(** [p_sweeps]: [mean(sweep(deck) for deck in decks)] *)
Definition p_sweeps (decks : list Deck) : result Probability :=
  outcomes <- mapM sweep decks ;;
  mean (map of_bool outcomes).

(** ** Approach 4: abstract incremental enumeration *)

Definition AbDeck := list Z.

(** [make_abdeck]: [AbDeck([suits] * ranks)].  List repetition by a
    non-positive count is the empty list; nothing is validated. *)
Definition make_abdeck (ranks suits : Z) : result AbDeck :=
  Ok (repeat suits (Z.to_nat ranks)).

(** [PDist], a [Counter]: a dict in insertion order, keys compared by
    value, a missing key reads as 0. *)
Definition PDist := list (AbDeck * Qc).

Definition deck_eq_dec : forall a b : AbDeck, {a = b} + {a <> b} :=
  list_eq_dec Z.eq_dec.

(** [P[deck]] *)
Fixpoint lookup (P : PDist) (deck : AbDeck) : Qc :=
  match P with
  | [] => 0
  | (k, p) :: P' => if deck_eq_dec deck k then p else lookup P' deck
  end.

(** [P[deck] += p]: an existing entry is updated in place, a new one is
    appended with value [0 + p]. *)
Fixpoint add (P : PDist) (deck : AbDeck) (p : Qc) : PDist :=
  match P with
  | [] => [(deck, 0 + p)]
  | (k, q) :: P' =>
      if deck_eq_dec deck k then (k, q + p) :: P' else (k, q) :: add P' deck p
  end.

(** [sum(P.values())] *)
Definition total (P : PDist) : Qc := fold_left Qcplus (map snd P) 0.

(** Float division: a zero divisor raises. *)
Definition fdiv (x y : Qc) : result Qc :=
  if Qc_eq_dec y 0 then Raise ZeroDivisionError else Ok (x / y).

(** [remove]:
    [counts = [c - indexes.count(i) for i, c in enumerate(deck)]], then
    [AbDeck(sorted(c for c in counts if c > 0))] *)
Definition remove (deck : AbDeck) (indexes : list Z) : AbDeck :=
  let counts := map (fun ic => (snd ic - count indexes (fst ic))%Z)
                    (enumerate deck) in
  sorted (filter (fun c => (c >? 0)%Z) counts).

(** The body of the inner loop of [play_turn]:
    [P1[remove(deck, i, j)] += P[deck] * deck[i] / n * deck[j] / (n - 1)].
    Unpacking [i, j] from a tuple of another length raises [ValueError]. *)
Definition play_pair (P : PDist) (deck : AbDeck) (n : Z)
    (P1 : PDist) (ij : list Z) : result PDist :=
  match ij with
  | [i; j] =>
      let key := remove deck [i; j] in
      di <- getitem deck i ;;
      x <- fdiv (lookup P deck * of_int di) (of_int n) ;;
      dj <- getitem deck j ;;
      y <- fdiv (x * of_int dj) (of_int (n - 1)) ;;
      Ok (add P1 key y)
  | _ => Raise ValueError
  end.

(** The body of the outer loop of [play_turn]. *)
Definition play_deck (P : PDist) (P1 : PDist) (deck : AbDeck) : result PDist :=
  let n := sum deck in
  foldM (play_pair P deck n) (combinations (range (len deck)) 2) P1.

Definition play_turn (P : PDist) : result PDist :=
  foldM (play_deck P) (map fst P) [].

(** [p_sweep]: start from [{deck: 1.0}], play [sum(deck) // 2] turns,
    return the sum of the values. *)
Definition turns (deck : AbDeck) : list Z := range (sum deck / 2).

Definition play_turns (deck : AbDeck) : result PDist :=
  foldM (fun P _ => play_turn P) (turns deck) [(deck, 1)].

Definition p_sweep (deck : AbDeck) : result Probability :=
  P <- play_turns deck ;; Ok (total P).

(** [p_sweep(make_abdeck(ranks, suits))] *)
Definition p_sweep_config (ranks suits : Z) : result Probability :=
  deck <- make_abdeck ranks suits ;; p_sweep deck.

(** [p_sweeps(permutations(make_deck(ranks, suits)))] *)
Definition p_sweeps_config (ranks suits : Z) : result Probability :=
  p_sweeps (permutations (make_deck ranks suits)).

(** [P = play_turn(P)] repeated [t] times. *)
Fixpoint iter_turns (t : nat) (P : PDist) : result PDist :=
  match t with
  | O => Ok P
  | S t' => P' <- play_turn P ;; iter_turns t' P'
  end.

(** ** The data model of the specification *)

(** A canonical state: every count is at least 1 and the counts ascend. *)
Definition canonical (state : AbDeck) : Prop :=
  Forall (fun c => (1 <= c)%Z) state /\ Sorted Z.le state.

(** A dict has no repeated key. *)
Definition dict (P : PDist) : Prop := NoDup (map fst P).

(** A distribution: a dict from canonical states to non-negative masses. *)
Definition distribution (P : PDist) : Prop :=
  dict P /\ Forall canonical (map fst P) /\ Forall (fun e => 0 <= snd e) P.

(** A degenerate deck: a single rank remains. *)
Definition single_rank (state : AbDeck) : Prop := length state = 1%nat.

(** The total token count of a state. *)
Definition tokens (state : AbDeck) : Z := fold_right Z.add 0%Z state.

(** The count at position [k] of a state. *)
Definition item (state : AbDeck) (k : Z) : Z := nth (Z.to_nat k) state 0%Z.

(** The state with the count at position [i] decreased by [d]. *)
Fixpoint decrease (d : Z) (state : list Z) (i : nat) : list Z :=
  match state, i with
  | [], _ => []
  | c :: rest, O => (c - d)%Z :: rest
  | c :: rest, S i' => c :: decrease d rest i'
  end.

(** Canonical form: drop the non-positive entries and sort. *)
Definition canonicalize (counts : list Z) : AbDeck :=
  sorted (filter (fun c => (0 <? c)%Z) counts).

(** [remove_pair] as the specification words it: decrement the count at
    [i], decrement the count at [j], canonicalize. *)
Definition remove_pair (state : AbDeck) (i j : nat) : AbDeck :=
  canonicalize (decrease 1 (decrease 1 state i) j).

Definition Qcsum (l : list Qc) : Qc := fold_right Qcplus 0 l.

(** The mass of one draw as the specification words it:
    [mass × state[i]/n × state[j]/(n-1)]. *)
Definition pair_mass (mass : Qc) (state : AbDeck) (i j : Z) : Qc :=
  let n := tokens state in
  mass * (of_int (item state i) / of_int n)
       * (of_int (item state j) / of_int (n - 1)).

(** The mass the specification gives to [key] after one turn from [P]:
    over every entry of [P] and every pair of positions, the pairs with
    [i < j] that lead to [key] contribute, the others contribute nothing. *)
Definition turn_mass (P : PDist) (key : AbDeck) : Qc :=
  Qcsum (map (fun e =>
    let state := fst e in
    let positions := range (len state) in
    Qcsum (map (fun i =>
      Qcsum (map (fun j =>
        if (i <? j)%Z then
          if deck_eq_dec (remove state [i; j]) key
          then pair_mass (snd e) state i j else 0
        else 0) positions)) positions)) P).

(** The states the specification reaches in one turn from [P]. *)
Definition successor (P : PDist) (key : AbDeck) : Prop :=
  exists state i j,
    In state (map fst P) /\ (0 <= i < j)%Z /\ (j < len state)%Z /\
    key = remove state [i; j].

(** ** Counting the sweeps of the brute-force enumeration *)

(** [sweep] on a deck that deals out in whole pairs. *)
Fixpoint sweep_pairs (deck : Deck) : bool :=
  match deck with
  | a :: b :: rest => (a >? b)%Z && sweep_pairs rest
  | _ => true
  end.

Definition Zsum (l : list Z) : Z := fold_right Z.add 0%Z l.

(** The number of orderings of [deck] (of [2 * turns] cards) in which the
    first card of every dealt pair beats the second: choose the first
    pair by position, then count the orderings of the cards that remain. *)
Fixpoint count_sweeps (turns : nat) (deck : Deck) : Z :=
  match turns with
  | O => 1%Z
  | S turns' =>
      Zsum (map (fun a =>
        Zsum (map (fun b =>
          if (fst a >? fst b)%Z then count_sweeps turns' (snd b) else 0%Z)
          (picks (snd a)))) (picks deck))
  end.

Definition count_true (l : list bool) : Z :=
  Zsum (map (fun b : bool => if b then 1%Z else 0%Z) l).

Fixpoint factorial (n : nat) : Z :=
  match n with
  | O => 1%Z
  | S n' => (Z.of_nat n * factorial n')%Z
  end.

(** The fraction of sweeps among the orderings of a deck. *)
Definition sweep_fraction (deck : Deck) : Qc :=
  of_int (count_sweeps (Nat.div2 (length deck)) deck)
  / of_int (factorial (length deck)).

(** Does a fallible computation return a number equal to [p]? *)
Definition returns (r : result Qc) (p : Qc) : bool :=
  match r with
  | Ok q => Qeq_bool q p
  | Raise _ => false
  end.

(** The configurations of at most ten cards that deal out in pairs. *)
Definition small_even_configs : list (Z * Z) :=
  filter (fun rs => let n := (fst rs * snd rs)%Z in (n <=? 10)%Z && Z.even n)
         (list_prod (map Z.succ (range 10)) (map Z.succ (range 10))).

Definition half : Qc := Q2Qc (1 # 2).

(** ** One turn as a list of contributions *)

(** The mass [play_turn] adds for the positions [ij] of [deck]:
    [P[deck] * deck[i] / n * deck[j] / (n - 1)]. *)
Definition weight (P : PDist) (deck : AbDeck) (ij : list Z) : Qc :=
  match ij with
  | [i; j] =>
      lookup P deck * of_int (item deck i) / of_int (sum deck)
        * of_int (item deck j) / of_int (sum deck - 1)
  | _ => 0
  end.

(** The [(key, mass)] increments of one turn, in the order of the loops. *)
Definition contributions (P : PDist) : list (AbDeck * Qc) :=
  flat_map (fun deck =>
              map (fun ij => (remove deck ij, weight P deck ij))
                  (combinations (range (len deck)) 2))
           (map fst P).

Definition add_all (increments : list (AbDeck * Qc)) (P1 : PDist) : PDist :=
  fold_left (fun acc kv => add acc (fst kv) (snd kv)) increments P1.

(** The sum of [a * b] over the pairs of entries of a state. *)
Fixpoint pair_products (state : list Z) : Z :=
  match state with
  | [] => 0%Z
  | c :: rest => (c * tokens rest + pair_products rest)%Z
  end.

(** The share of the mass of [state] that survives one turn. *)
Definition win_share (state : AbDeck) : Qc :=
  of_int (pair_products state) * / of_int (tokens state)
    * / of_int (tokens state - 1).

(** ** Further notions used to describe the code *)

(** Every whole pair of the deal is won by its first card. *)
Definition wins_every_pair (deck : Deck) : Prop :=
  forall k : nat, (2 * k + 1 < length deck)%nat ->
    (nth (2 * k + 1) deck 0 < nth (2 * k) deck 0)%Z.

(** A key on which [play_turn] divides by zero: it has a pair of positions
    and [n] or [n - 1] is zero. *)
Definition divides_by_zero (key : AbDeck) : bool :=
  (2 <=? len key)%Z && ((sum key =? 0)%Z || (sum key =? 1)%Z).

(** ** The float range *)

(** The largest finite float, [sys.float_info.max]: every integer of
    magnitude at most [float_max] converts to a float. *)
Definition float_max : Z := (2 ^ 1024 - 2 ^ 971)%Z.

(** A distribution on which float arithmetic stays in range: no state has
    more than [float_max] tokens and no mass has magnitude above 1. *)
Definition in_float_range (P : PDist) : Prop :=
  Forall (fun e => (sum (fst e) <= float_max)%Z /\
                   Qcopp 1 <= snd e /\ snd e <= 1) P.

(** The least positive normal float, [sys.float_info.min]. *)
Definition float_min : Qc := Q2Qc (1 # 2 ^ 1022).

(** A distribution without subnormal masses: every mass is zero or at
    least [float_min].  Below [float_min] a float is a small multiple of
    2^-1074 and a quotient is rounded to a whole multiple: on
    [{(1, 1, 1, 1): 3e-323}], six units of mass, each of the six pairs is
    rounded up to one unit. *)
Definition normal_masses (P : PDist) : Prop :=
  Forall (fun e => snd e = 0 \/ float_min <= snd e) P.

(** * Properties *)

(** ** Fallible loops *)

Section Loops.
  Context {A S : Type}.

Lemma foldM_pure (body : S -> A -> result S) (g : S -> A -> S) (l : list A) :
  (forall x acc, In x l -> body acc x = Ok (g acc x)) ->
  forall acc, foldM body l acc = Ok (fold_left g l acc).
Proof.
  induction l as [|x l IH]; intros Hbody acc; simpl.
  - reflexivity.
  - rewrite (Hbody x acc (or_introl eq_refl)). simpl.
    apply IH. intros y acc' Hy. apply Hbody. now right.
Qed.

(** A property kept by every successful iteration holds when the loop
    returns. *)
Lemma foldM_invariant (Inv : S -> Prop) (body : S -> A -> result S)
    (l : list A) :
  (forall acc x acc', Inv acc -> body acc x = Ok acc' -> Inv acc') ->
  forall acc r, Inv acc -> foldM body l acc = Ok r -> Inv r.
Proof.
  intros Hbody. induction l as [|x l IH]; intros acc r Hacc Hr; simpl in Hr.
  - now inversion Hr; subst.
  - destruct (body acc x) as [acc'|e] eqn:E; simpl in Hr; [|discriminate].
    eapply IH; [|exact Hr]. eapply Hbody; eauto.
Qed.

Lemma mapM_pure (f : A -> result S) (g : A -> S) (l : list A) :
  (forall x, In x l -> f x = Ok (g x)) -> mapM f l = Ok (map g l).
Proof.
  induction l as [|x l IH]; intros H; simpl.
  - reflexivity.
  - rewrite (H x (or_introl eq_refl)). simpl.
    rewrite IH by (intros y Hy; apply H; now right). reflexivity.
Qed.

End Loops.

(** ** Ranges and sums *)

Lemma len_nonneg {A : Type} (l : list A) : (0 <= len l)%Z.
Proof. unfold len. lia. Qed.

Lemma range_of_nat (n : nat) : range (Z.of_nat n) = map Z.of_nat (seq 0 n).
Proof. unfold range. now rewrite Nat2Z.id. Qed.

Lemma range_len {A : Type} (l : list A) :
  range (len l) = map Z.of_nat (seq 0 (length l)).
Proof. apply range_of_nat. Qed.

Lemma in_range (n i : Z) : In i (range n) <-> (0 <= i < n)%Z.
Proof.
  unfold range. rewrite in_map_iff. split.
  - intros (k & <- & Hk). apply in_seq in Hk. lia.
  - intros Hi. exists (Z.to_nat i). split; [lia|]. apply in_seq. lia.
Qed.

Lemma range_nonpos (n : Z) : (n <= 0)%Z -> range n = [].
Proof.
  intros Hn. unfold range. replace (Z.to_nat n) with O by lia. reflexivity.
Qed.

Lemma fold_left_Zadd (l : list Z) (a : Z) :
  fold_left Z.add l a = (a + fold_right Z.add 0 l)%Z.
Proof.
  revert a. induction l as [|x l IH]; intros a; simpl.
  - lia.
  - rewrite IH. lia.
Qed.

Lemma sum_tokens (deck : list Z) : sum deck = tokens deck.
Proof. unfold sum, tokens. rewrite fold_left_Zadd. lia. Qed.

Lemma tokens_ge_length (deck : list Z) :
  Forall (fun c => (1 <= c)%Z) deck -> (len deck <= tokens deck)%Z.
Proof.
  unfold len. induction 1 as [|c l Hc Hl IH]; simpl tokens; simpl length; lia.
Qed.

Lemma tokens_repeat (c : Z) (n : nat) :
  tokens (repeat c n) = (Z.of_nat n * c)%Z.
Proof.
  induction n as [|n IH]; [reflexivity|].
  cbn [repeat tokens fold_right]. fold (tokens (repeat c n)). rewrite IH. lia.
Qed.

(** ** Sorting and canonical states *)

Lemma insert_sorted_perm (x : Z) (l : list Z) :
  Permutation (x :: l) (insert_sorted x l).
Proof.
  induction l as [|y l IH]; simpl.
  - reflexivity.
  - destruct (x <=? y)%Z.
    + reflexivity.
    + rewrite perm_swap. now apply perm_skip.
Qed.

Lemma sorted_perm (l : list Z) : Permutation l (sorted l).
Proof.
  induction l as [|x l IH]; simpl.
  - reflexivity.
  - rewrite <- insert_sorted_perm. now apply perm_skip.
Qed.

Lemma insert_sorted_Sorted (x : Z) (l : list Z) :
  Sorted Z.le l -> Sorted Z.le (insert_sorted x l).
Proof.
  induction 1 as [|y l Hl IH Hy]; simpl.
  - repeat constructor.
  - destruct (Z.leb_spec x y) as [Hxy|Hxy].
    + constructor; [now constructor | now constructor].
    + constructor; [exact IH|].
      destruct l as [|z l]; simpl.
      * constructor. lia.
      * destruct (Z.leb_spec x z); constructor; [lia|].
        now inversion Hy.
Qed.

Lemma sorted_Sorted (l : list Z) : Sorted Z.le (sorted l).
Proof.
  induction l as [|x l IH]; simpl.
  - constructor.
  - now apply insert_sorted_Sorted.
Qed.

Lemma Sorted_perm_eq (l1 l2 : list Z) :
  Sorted Z.le l1 -> Sorted Z.le l2 -> Permutation l1 l2 -> l1 = l2.
Proof.
  intros H1 H2.
  apply Sorted_StronglySorted in H1; [|intros a b c; apply Z.le_trans].
  apply Sorted_StronglySorted in H2; [|intros a b c; apply Z.le_trans].
  revert l2 H2. induction H1 as [|a t1 Ht1 IH Ha]; intros l2 H2 Hp.
  - apply Permutation_nil in Hp. now subst.
  - destruct H2 as [|b t2 Ht2 Hb].
    + symmetry in Hp. now apply Permutation_nil in Hp.
    + assert (a = b) as <-.
      { assert (In a (b :: t2)) as Hab
          by (eapply Permutation_in; [exact Hp | now left]).
        assert (In b (a :: t1)) as Hba
          by (eapply Permutation_in; [symmetry; exact Hp | now left]).
        rewrite Forall_forall in Ha, Hb.
        destruct Hab as [->|Hab]; [reflexivity|].
        destruct Hba as [->|Hba]; [reflexivity|].
        apply Z.le_antisymm; [now apply Ha | now apply Hb]. }
      f_equal. apply IH; [exact Ht2|].
      now apply Permutation_cons_inv in Hp.
Qed.

Lemma canonicalize_canonical (counts : list Z) : canonical (canonicalize counts).
Proof.
  split.
  - eapply Permutation_Forall; [apply sorted_perm|].
    apply Forall_forall. intros c Hc. apply filter_In in Hc.
    destruct Hc as [_ Hc]. apply Z.ltb_lt in Hc. lia.
  - apply sorted_Sorted.
Qed.

Lemma canonicalize_unique (counts : list Z) (state : AbDeck) :
  canonical state ->
  Permutation state (filter (fun c => (0 <? c)%Z) counts) ->
  state = canonicalize counts.
Proof.
  intros [_ Hs] Hp. apply Sorted_perm_eq.
  - exact Hs.
  - apply sorted_Sorted.
  - rewrite Hp. apply sorted_perm.
Qed.

Lemma filter_gtb_ltb (l : list Z) :
  filter (fun c => (c >? 0)%Z) l = filter (fun c => (0 <? c)%Z) l.
Proof.
  apply filter_ext. intros c. now rewrite Z.gtb_ltb.
Qed.

Lemma remove_canonical (deck : AbDeck) (indexes : list Z) :
  canonical (remove deck indexes).
Proof.
  unfold remove. rewrite filter_gtb_ltb. apply canonicalize_canonical.
Qed.

Lemma repeat_canonical (c : Z) (n : nat) : (1 <= c)%Z -> canonical (repeat c n).
Proof.
  intros Hc. split.
  - apply Forall_forall. intros x Hx. apply repeat_spec in Hx. now subst.
  - induction n as [|n IH]; simpl; constructor; [exact IH|].
    destruct n; simpl; constructor. lia.
Qed.

Create HintDb canon discriminated.
#[local] Hint Resolve canonicalize_canonical remove_canonical repeat_canonical
  sorted_Sorted : canon.

(** ** [remove] against the specification's decrement *)

Lemma decrease_length (d : Z) (state : list Z) (i : nat) :
  length (decrease d state i) = length state.
Proof.
  revert i. induction state as [|c l IH]; intros [|i]; simpl; auto.
Qed.

Lemma decrease_nth (d : Z) (state : list Z) (i k : nat) :
  (i < length state)%nat ->
  nth k (decrease d state i) 0%Z =
  if Nat.eqb k i then (nth k state 0 - d)%Z else nth k state 0%Z.
Proof.
  revert i k. induction state as [|c l IH]; intros i k Hi; simpl in Hi.
  - lia.
  - destruct i as [|i], k as [|k]; simpl; try reflexivity.
    apply IH. lia.
Qed.

Lemma range_length (n : nat) : length (range (Z.of_nat n)) = n.
Proof. rewrite range_of_nat, length_map. apply length_seq. Qed.

Lemma range_nth (n k : nat) :
  (k < n)%nat -> nth k (range (Z.of_nat n)) 0%Z = Z.of_nat k.
Proof.
  intros Hk. rewrite range_of_nat.
  change 0%Z with (Z.of_nat 0). rewrite map_nth. now rewrite seq_nth.
Qed.

Lemma counts_length (deck : list Z) (indexes : list Z) :
  length (map (fun ic => (snd ic - count indexes (fst ic))%Z) (enumerate deck))
  = length deck.
Proof.
  unfold enumerate, len. rewrite length_map, length_combine, range_length. lia.
Qed.

Lemma counts_nth (deck : list Z) (indexes : list Z) (k : nat) :
  (k < length deck)%nat ->
  nth k (map (fun ic => (snd ic - count indexes (fst ic))%Z) (enumerate deck)) 0%Z
  = (nth k deck 0 - count indexes (Z.of_nat k))%Z.
Proof.
  intros Hk.
  set (F := fun ic : Z * Z => (snd ic - count indexes (fst ic))%Z).
  rewrite (nth_indep _ 0%Z (F (0%Z, 0%Z)))
    by (unfold F; rewrite counts_length; exact Hk).
  rewrite map_nth. unfold enumerate, len.
  rewrite combine_nth by apply range_length.
  unfold F. simpl. now rewrite range_nth.
Qed.

Lemma count_pair (i j k : Z) :
  count [i; j] k =
  ((if Z.eqb i k then 1 else 0) + (if Z.eqb j k then 1 else 0))%Z.
Proof.
  unfold count. simpl.
  destruct (Z.eq_dec i k) as [Hi|Hi], (Z.eq_dec j k) as [Hj|Hj];
    destruct (Z.eqb_spec i k), (Z.eqb_spec j k); try contradiction; reflexivity.
Qed.

Lemma remove_two (deck : AbDeck) (i j : nat) :
  (i < length deck)%nat -> (j < length deck)%nat ->
  remove deck [Z.of_nat i; Z.of_nat j]
  = canonicalize (decrease 1 (decrease 1 deck i) j).
Proof.
  intros Hi Hj. unfold remove, canonicalize. rewrite filter_gtb_ltb.
  do 2 f_equal. apply (nth_ext _ _ 0%Z 0%Z).
  - now rewrite counts_length, !decrease_length.
  - intros k Hk. rewrite counts_length in Hk.
    rewrite counts_nth by exact Hk. rewrite count_pair.
    rewrite decrease_nth by (now rewrite decrease_length).
    rewrite decrease_nth by exact Hi.
    destruct (Nat.eqb_spec k j), (Nat.eqb_spec k i),
      (Z.eqb_spec (Z.of_nat i) (Z.of_nat k)),
      (Z.eqb_spec (Z.of_nat j) (Z.of_nat k)); lia.
Qed.

Lemma decrease_twice (state : list Z) (i : nat) :
  decrease 1 (decrease 1 state i) i = decrease 2 state i.
Proof.
  revert i. induction state as [|c l IH]; intros [|i]; simpl.
  - reflexivity.
  - reflexivity.
  - f_equal. lia.
  - f_equal. apply IH.
Qed.

(** ** [combinations] of two positions *)

Lemma combinations_one {A : Type} (l : list A) :
  combinations l 1 = map (fun x => [x]) l.
Proof.
  induction l as [|x l IH]; simpl.
  - reflexivity.
  - rewrite IH. destruct l; reflexivity.
Qed.

Lemma combinations_two_cons {A : Type} (x : A) (l : list A) :
  combinations (x :: l) 2 = map (fun y => [x; y]) l ++ combinations l 2.
Proof.
  cbn [combinations]. rewrite combinations_one, map_map. reflexivity.
Qed.

Lemma combinations_two_map {A B : Type} (f : A -> B) (l : list A) :
  combinations (map f l) 2 = map (map f) (combinations l 2).
Proof.
  induction l as [|x l IH].
  - reflexivity.
  - cbn [map]. rewrite !combinations_two_cons, IH, map_app, !map_map.
    reflexivity.
Qed.

Lemma combinations_two_ordered (R : Z -> Z -> Prop) (l : list Z) (c : list Z) :
  ForallOrdPairs R l -> In c (combinations l 2) ->
  exists i j, c = [i; j] /\ In i l /\ In j l /\ R i j.
Proof.
  induction 1 as [|x l Hx Hl IH]; intros Hc.
  - destruct Hc.
  - rewrite combinations_two_cons in Hc. apply in_app_or in Hc.
    destruct Hc as [Hc|Hc].
    + apply in_map_iff in Hc. destruct Hc as (y & <- & Hy).
      exists x, y. rewrite Forall_forall in Hx.
      repeat split; [now left | now right | now apply Hx].
    + destruct (IH Hc) as (i & j & -> & Hi & Hj & Hij).
      exists i, j. repeat split; [now right | now right | exact Hij].
Qed.

Lemma range_ascending (n : nat) : ForallOrdPairs Z.lt (range (Z.of_nat n)).
Proof.
  rewrite range_of_nat. generalize 0%nat.
  induction n as [|n IH]; intros a; simpl.
  - constructor.
  - constructor; [|apply IH].
    apply Forall_forall. intros y Hy. apply in_map_iff in Hy.
    destruct Hy as (k & <- & Hk). apply in_seq in Hk.
    lia.
Qed.

(** Every pair of positions that [play_turn] visits is [[i; j]] with
    [0 <= i < j < len(deck)]. *)
Lemma positions_ordered (deck : AbDeck) (c : list Z) :
  In c (combinations (range (len deck)) 2) ->
  exists i j, c = [i; j] /\ (0 <= i < j)%Z /\ (j < len deck)%Z.
Proof.
  intros Hc.
  destruct (combinations_two_ordered Z.lt _ c (range_ascending _) Hc)
    as (i & j & -> & Hi & Hj & Hij).
  apply in_range in Hi, Hj. unfold len. exists i, j. repeat split; lia.
Qed.

(** ** Rational arithmetic *)

(** Expose the underlying fraction of an expression over [Qc]. *)
Ltac qc_unfold :=
  unfold Qcle, Qclt, Qcdiv, Qcminus, of_int, half in *;
  cbn [this Q2Qc Qcplus Qcmult Qcopp Qcinv] in *;
  rewrite ?Qred_correct in *.

Lemma of_int_this (z : Z) : (this (of_int z) == inject_Z z)%Q.
Proof. qc_unfold. reflexivity. Qed.

Lemma of_int_0 : of_int 0 = 0.
Proof. reflexivity. Qed.

Lemma of_int_add (a b : Z) : of_int (a + b) = of_int a + of_int b.
Proof. apply Qc_is_canon. qc_unfold. now rewrite inject_Z_plus. Qed.

Lemma of_int_mul (a b : Z) : of_int (a * b) = of_int a * of_int b.
Proof. apply Qc_is_canon. qc_unfold. now rewrite inject_Z_mult. Qed.

Lemma of_int_nonzero (a : Z) : a <> 0%Z -> of_int a <> 0.
Proof.
  intros Ha H. apply Ha. apply (f_equal this) in H.
  assert (inject_Z a == inject_Z 0)%Q as H'
    by (rewrite <- (of_int_this a), H; reflexivity).
  exact (proj1 (inject_Z_injective a 0%Z) H').
Qed.

Lemma half_le (x : Qc) : 0 <= x -> x * half <= x.
Proof. intros Hx. qc_unfold. lra. Qed.

Lemma half_lt (x : Qc) : 0 < x -> x * half < x.
Proof. intros Hx. qc_unfold. lra. Qed.

Lemma Qcsum_app (l1 l2 : list Qc) : Qcsum (l1 ++ l2) = Qcsum l1 + Qcsum l2.
Proof.
  induction l1 as [|x l1 IH]; simpl.
  - now rewrite Qcplus_0_l.
  - rewrite IH. ring.
Qed.

Lemma Qcsum_ext_in {A : Type} (f g : A -> Qc) (l : list A) :
  (forall x, In x l -> f x = g x) -> Qcsum (map f l) = Qcsum (map g l).
Proof.
  intros H. f_equal. now apply map_ext_in.
Qed.

Lemma Qcsum_scale {A : Type} (c : Qc) (f : A -> Qc) (l : list A) :
  Qcsum (map (fun x => c * f x) l) = c * Qcsum (map f l).
Proof.
  induction l as [|x l IH]; simpl; [ring|]. rewrite IH. ring.
Qed.

Lemma Qcsum_le {A : Type} (f g : A -> Qc) (l : list A) :
  (forall x, In x l -> f x <= g x) -> Qcsum (map f l) <= Qcsum (map g l).
Proof.
  induction l as [|x l IH]; intros H; simpl.
  - apply Qcle_refl.
  - apply Qcplus_le_compat; [apply H; now left|].
    apply IH. intros y Hy. apply H. now right.
Qed.

Lemma fold_left_Qcplus (l : list Qc) (a : Qc) :
  fold_left Qcplus l a = a + Qcsum l.
Proof.
  revert a. induction l as [|x l IH]; intros a; simpl.
  - ring.
  - rewrite IH. ring.
Qed.

Lemma total_sum (P : PDist) : total P = Qcsum (map snd P).
Proof. unfold total. rewrite fold_left_Qcplus. ring. Qed.

(** ** The dict operations of [PDist] *)

Lemma lookup_add (P : PDist) (k : AbDeck) (p : Qc) (k' : AbDeck) :
  lookup (add P k p) k' =
  if deck_eq_dec k k' then lookup P k' + p else lookup P k'.
Proof.
  induction P as [|[k0 q] P IH]; simpl.
  - destruct (deck_eq_dec k' k), (deck_eq_dec k k');
      try reflexivity; congruence.
  - destruct (deck_eq_dec k k0) as [E0|E0]; simpl.
    + destruct (deck_eq_dec k' k0), (deck_eq_dec k k');
        try reflexivity; congruence.
    + destruct (deck_eq_dec k' k0) as [E1|E1].
      * destruct (deck_eq_dec k k'); [congruence | reflexivity].
      * exact IH.
Qed.

Lemma total_add (P : PDist) (k : AbDeck) (p : Qc) :
  total (add P k p) = total P + p.
Proof.
  rewrite !total_sum. induction P as [|[k0 q] P IH]; simpl.
  - ring.
  - destruct (deck_eq_dec k k0); simpl; [ring|]. rewrite IH. ring.
Qed.

Lemma keys_add (P : PDist) (k : AbDeck) (p : Qc) (k' : AbDeck) :
  In k' (map fst (add P k p)) <-> k' = k \/ In k' (map fst P).
Proof.
  induction P as [|[k0 q] P IH]; simpl.
  - intuition congruence.
  - destruct (deck_eq_dec k k0) as [->|Hk]; simpl.
    + intuition congruence.
    + rewrite IH. intuition congruence.
Qed.

Lemma dict_add (P : PDist) (k : AbDeck) (p : Qc) : dict P -> dict (add P k p).
Proof.
  unfold dict. induction P as [|[k0 q] P IH]; simpl; intros HP.
  - repeat constructor. intros [].
  - inversion HP as [|? ? Hnotin Hrest]; subst.
    destruct (deck_eq_dec k k0) as [->|Hk]; simpl.
    + now constructor.
    + constructor; [|now apply IH].
      rewrite keys_add. intros [E|E]; [congruence | contradiction].
Qed.

Lemma nonneg_add (P : PDist) (k : AbDeck) (p : Qc) :
  Forall (fun e => 0 <= snd e) P -> 0 <= p ->
  Forall (fun e => 0 <= snd e) (add P k p).
Proof.
  intros HP Hp. induction HP as [|[k0 q] P Hq HP IH]; simpl.
  - repeat constructor. simpl. now rewrite Qcplus_0_l.
  - destruct (deck_eq_dec k k0); constructor; simpl in *; auto.
    rewrite <- (Qcplus_0_l 0). now apply Qcplus_le_compat.
Qed.

Lemma lookup_entry (P : PDist) (k : AbDeck) (p : Qc) :
  dict P -> In (k, p) P -> lookup P k = p.
Proof.
  unfold dict. induction P as [|[k0 q] P IH]; simpl; intros HP Hin.
  - destruct Hin.
  - inversion HP as [|? ? Hnotin Hrest]; subst.
    destruct Hin as [E|Hin].
    + inversion E; subst. destruct (deck_eq_dec k k); congruence.
    + destruct (deck_eq_dec k k0) as [->|Hk]; [|now apply IH].
      exfalso. apply Hnotin. apply in_map_iff. now exists (k0, p).
Qed.

Lemma lookup_add_all (cs : list (AbDeck * Qc)) (P1 : PDist) (k : AbDeck) :
  lookup (add_all cs P1) k =
  lookup P1 k
  + Qcsum (map (fun kv => if deck_eq_dec (fst kv) k then snd kv else 0) cs).
Proof.
  unfold add_all. revert P1. induction cs as [|[k0 p] cs IH]; intros P1; simpl.
  - ring.
  - rewrite IH, lookup_add. destruct (deck_eq_dec k0 k); ring.
Qed.

Lemma total_add_all (cs : list (AbDeck * Qc)) (P1 : PDist) :
  total (add_all cs P1) = total P1 + Qcsum (map snd cs).
Proof.
  unfold add_all. revert P1. induction cs as [|[k0 p] cs IH]; intros P1; simpl.
  - ring.
  - rewrite IH, total_add. ring.
Qed.

Lemma keys_add_all (cs : list (AbDeck * Qc)) (P1 : PDist) (k : AbDeck) :
  In k (map fst (add_all cs P1)) <-> In k (map fst P1) \/ In k (map fst cs).
Proof.
  unfold add_all. revert P1. induction cs as [|[k0 p] cs IH]; intros P1; simpl.
  - tauto.
  - rewrite IH, keys_add. intuition congruence.
Qed.

Lemma dict_add_all (cs : list (AbDeck * Qc)) (P1 : PDist) :
  dict P1 -> dict (add_all cs P1).
Proof.
  unfold add_all. revert P1. induction cs as [|[k0 p] cs IH]; intros P1 HP; simpl.
  - exact HP.
  - apply IH. now apply dict_add.
Qed.

Lemma nonneg_add_all (cs : list (AbDeck * Qc)) (P1 : PDist) :
  Forall (fun e => 0 <= snd e) P1 -> Forall (fun e => 0 <= snd e) cs ->
  Forall (fun e => 0 <= snd e) (add_all cs P1).
Proof.
  unfold add_all. revert P1.
  induction cs as [|[k0 p] cs IH]; intros P1 HP Hcs; simpl.
  - exact HP.
  - inversion Hcs; subst. apply IH; [|assumption]. now apply nonneg_add.
Qed.

Lemma add_all_map {A : Type} (h : A -> AbDeck * Qc) (l : list A) (P1 : PDist) :
  add_all (map h l) P1 =
  fold_left (fun acc x => add acc (fst (h x)) (snd (h x))) l P1.
Proof.
  unfold add_all. revert P1. induction l as [|x l IH]; intros P1; simpl; auto.
Qed.

Lemma add_all_app (cs1 cs2 : list (AbDeck * Qc)) (P1 : PDist) :
  add_all (cs1 ++ cs2) P1 = add_all cs2 (add_all cs1 P1).
Proof. unfold add_all. apply fold_left_app. Qed.

Lemma add_all_flat_map {A : Type} (f : A -> list (AbDeck * Qc)) (l : list A)
    (P1 : PDist) :
  add_all (flat_map f l) P1 = fold_left (fun acc x => add_all (f x) acc) l P1.
Proof.
  revert P1. induction l as [|x l IH]; intros P1; simpl.
  - reflexivity.
  - now rewrite add_all_app, IH.
Qed.

(** ** One turn never raises on states with positive counts *)

Lemma getitem_item (deck : list Z) (i : Z) :
  (0 <= i < len deck)%Z -> getitem deck i = Ok (item deck i).
Proof.
  unfold len, getitem, item. intros Hi.
  assert ((i <? 0)%Z = false) as Hlt by (apply Z.ltb_ge; lia).
  cbv zeta. rewrite !Hlt.
  destruct (nth_error deck (Z.to_nat i)) as [x|] eqn:E.
  - f_equal. symmetry. now apply nth_error_nth.
  - apply nth_error_None in E. lia.
Qed.

Lemma play_pair_weight (P : PDist) (deck : AbDeck) (P1 : PDist) (ij : list Z) :
  Forall (fun c => (1 <= c)%Z) deck ->
  In ij (combinations (range (len deck)) 2) ->
  play_pair P deck (sum deck) P1 ij
  = Ok (add P1 (remove deck ij) (weight P deck ij)).
Proof.
  intros Hpos Hij.
  destruct (positions_ordered deck ij Hij) as (i & j & -> & Hi & Hj).
  pose proof (tokens_ge_length deck Hpos) as Hn. rewrite <- sum_tokens in Hn.
  unfold play_pair, weight, fdiv.
  rewrite !getitem_item by lia. simpl.
  destruct (Qc_eq_dec (of_int (sum deck)) 0) as [E|_];
    [apply of_int_nonzero in E; [contradiction | lia]|].
  simpl.
  destruct (Qc_eq_dec (of_int (sum deck - 1)) 0) as [E|_];
    [apply of_int_nonzero in E; [contradiction | lia]|].
  reflexivity.
Qed.

Lemma play_deck_contributions (P P1 : PDist) (deck : AbDeck) :
  Forall (fun c => (1 <= c)%Z) deck ->
  play_deck P P1 deck
  = Ok (add_all (map (fun ij => (remove deck ij, weight P deck ij))
                     (combinations (range (len deck)) 2)) P1).
Proof.
  intros Hpos. unfold play_deck. rewrite add_all_map. simpl.
  apply foldM_pure. intros ij acc Hij. now apply play_pair_weight.
Qed.

Lemma play_turn_contributions (P : PDist) :
  Forall (fun deck => Forall (fun c => (1 <= c)%Z) deck) (map fst P) ->
  play_turn P = Ok (add_all (contributions P) []).
Proof.
  intros Hpos. unfold play_turn, contributions.
  rewrite add_all_flat_map. apply foldM_pure.
  intros deck acc Hdeck. apply play_deck_contributions.
  rewrite Forall_forall in Hpos. now apply Hpos.
Qed.

(** ** The mass that survives one turn *)

Lemma map_item_range (deck : list Z) :
  map (item deck) (range (len deck)) = deck.
Proof.
  apply (nth_ext _ _ 0%Z 0%Z).
  - unfold len. now rewrite length_map, range_length.
  - intros k Hk. unfold len in *. rewrite length_map, range_length in Hk.
    rewrite (nth_indep _ 0%Z (item deck 0%Z))
      by (now rewrite length_map, range_length).
    rewrite map_nth, range_nth by exact Hk.
    unfold item. now rewrite Nat2Z.id.
Qed.

Lemma tokens_nonneg (deck : list Z) :
  Forall (fun c => (1 <= c)%Z) deck -> (0 <= tokens deck)%Z.
Proof.
  intros H. pose proof (tokens_ge_length deck H). pose proof (len_nonneg deck).
  lia.
Qed.

Lemma pair_products_bounds (deck : list Z) :
  Forall (fun c => (1 <= c)%Z) deck ->
  (0 <= pair_products deck)%Z /\
  (2 * pair_products deck <= tokens deck * (tokens deck - 1))%Z.
Proof.
  induction 1 as [|c l Hc Hl [IH0 IH]].
  - simpl. lia.
  - pose proof (tokens_nonneg l Hl) as Ht.
    change (tokens (c :: l)) with (c + tokens l)%Z.
    cbn [pair_products].
    generalize dependent (tokens l). generalize dependent (pair_products l).
    intros pp Hpp t Ht2 Ht.
    assert (0 <= c * t)%Z by nia.
    assert (c <= c * c)%Z by nia.
    split; nia.
Qed.

Lemma pair_products_sum (K : Qc) (deck : list Z) :
  Qcsum (map (fun ab => match ab with
                        | [a; b] => K * of_int a * of_int b
                        | _ => 0
                        end) (combinations deck 2))
  = K * of_int (pair_products deck).
Proof.
  induction deck as [|c l IH].
  - cbn [combinations map Qcsum fold_right pair_products].
    rewrite of_int_0. ring.
  - rewrite combinations_two_cons, map_app, Qcsum_app, IH, map_map.
    cbn [pair_products]. rewrite of_int_add, of_int_mul.
    assert (Qcsum (map (fun y => K * of_int c * of_int y) l)
            = K * of_int c * of_int (tokens l)) as ->.
    { clear IH. induction l as [|y l IHl].
      - cbn [map Qcsum fold_right tokens]. rewrite of_int_0. ring.
      - cbn [map Qcsum fold_right tokens]. fold (tokens l).
        fold (Qcsum (map (fun y => K * of_int c * of_int y) l)).
        rewrite IHl, of_int_add. ring. }
    ring.
Qed.

Lemma weight_sum (P : PDist) (deck : AbDeck) :
  Qcsum (map (weight P deck) (combinations (range (len deck)) 2))
  = lookup P deck * win_share deck.
Proof.
  set (K := lookup P deck * / of_int (tokens deck) * / of_int (tokens deck - 1)).
  transitivity
    (Qcsum (map (fun ab => match ab with
                           | [a; b] => K * of_int a * of_int b
                           | _ => 0
                           end)
                (combinations (map (item deck) (range (len deck))) 2))).
  - rewrite combinations_two_map, map_map. apply Qcsum_ext_in.
    intros ij _. destruct ij as [|i [|j [|k ij]]]; try reflexivity.
    unfold weight, K, Qcdiv. simpl. rewrite sum_tokens. ring.
  - rewrite map_item_range, pair_products_sum.
    unfold K, win_share. ring.
Qed.

Lemma win_share_bounds (deck : AbDeck) :
  Forall (fun c => (1 <= c)%Z) deck ->
  0 <= win_share deck /\ win_share deck <= half.
Proof.
  intros Hpos.
  destruct (pair_products_bounds deck Hpos) as [H0 H2].
  pose proof (tokens_nonneg deck Hpos) as Ht.
  unfold win_share.
  destruct (Z.eq_dec (pair_products deck) 0) as [E|E].
  - rewrite E, of_int_0, !Qcmult_0_l.
    split; [apply Qcle_refl | qc_unfold; lra].
  - assert (2 <= tokens deck)%Z as Hn by nia.
    assert (0 < inject_Z (tokens deck))%Q as Hy
      by (rewrite <- (Zlt_Qlt 0); lia).
    assert (0 < inject_Z (tokens deck - 1))%Q as Hz
      by (rewrite <- (Zlt_Qlt 0); lia).
    assert (0 <= inject_Z (pair_products deck))%Q as Hx
      by (rewrite <- (Zle_Qle 0); lia).
    assert (2 * inject_Z (pair_products deck)
            <= inject_Z (tokens deck) * inject_Z (tokens deck - 1))%Q as Hxyz.
    { change 2%Q with (inject_Z 2).
      rewrite <- !inject_Z_mult, <- Zle_Qle. exact H2. }
    qc_unfold.
    set (x := inject_Z (pair_products deck)) in *.
    set (y := inject_Z (tokens deck)) in *.
    set (z := inject_Z (tokens deck - 1)) in *.
    assert (x * / y * / z == x / (y * z))%Q as ->
      by (field; split; lra).
    split.
    + apply Qle_shift_div_l; [nra | lra].
    + apply Qle_shift_div_r; [nra | lra].
Qed.

Lemma total_contributions (P : PDist) (keys : list AbDeck) :
  Qcsum (map snd
    (flat_map (fun deck =>
                 map (fun ij => (remove deck ij, weight P deck ij))
                     (combinations (range (len deck)) 2)) keys))
  = Qcsum (map (fun deck => lookup P deck * win_share deck) keys).
Proof.
  induction keys as [|deck keys IH]; simpl.
  - reflexivity.
  - rewrite map_app, Qcsum_app, IH, map_map. simpl.
    now rewrite weight_sum.
Qed.

Lemma total_play_turn (P : PDist) :
  dict P ->
  total (add_all (contributions P) [])
  = Qcsum (map (fun e => snd e * win_share (fst e)) P).
Proof.
  intros HP. rewrite total_add_all. unfold contributions.
  rewrite total_contributions, map_map.
  replace (total []) with 0 by reflexivity. rewrite Qcplus_0_l.
  apply Qcsum_ext_in. intros [k p] Hin. simpl.
  now rewrite (lookup_entry P k p HP Hin).
Qed.

Lemma distribution_positive (P : PDist) :
  Forall canonical (map fst P) ->
  Forall (fun deck => Forall (fun c => (1 <= c)%Z) deck) (map fst P).
Proof.
  apply Forall_impl. intros deck [H _]. exact H.
Qed.

Lemma total_nonneg (P : PDist) :
  Forall (fun e => 0 <= snd e) P -> 0 <= total P.
Proof.
  intros H. rewrite total_sum. induction H as [|e P He HP IH]; simpl.
  - apply Qcle_refl.
  - rewrite <- (Qcplus_0_l 0). now apply Qcplus_le_compat.
Qed.

(** Over exact rationals one turn keeps at most half of the mass; the
    float code keeps that up to rounding. *)
Lemma play_turn_half (P : PDist) :
  distribution P ->
  exists P1, play_turn P = Ok P1 /\ distribution P1 /\
             total P1 <= total P * half.
Proof.
  intros (Hdict & Hcan & Hnn).
  pose proof (distribution_positive P Hcan) as Hpos.
  exists (add_all (contributions P) []). split; [|split].
  - now apply play_turn_contributions.
  - split; [|split].
    + apply dict_add_all. constructor.
    + apply Forall_forall. intros k Hk. apply keys_add_all in Hk.
      destruct Hk as [[]|Hk]. unfold contributions in Hk.
      rewrite in_map_iff in Hk. destruct Hk as ([k' p] & <- & Hin).
      apply in_flat_map in Hin. destruct Hin as (deck & _ & Hin).
      apply in_map_iff in Hin. destruct Hin as (ij & E & _).
      inversion E; subst. apply remove_canonical.
    + apply nonneg_add_all; [constructor|].
      apply Forall_forall. intros [k p] Hin. simpl.
      unfold contributions in Hin.
      apply in_flat_map in Hin. destruct Hin as (deck & Hdeck & Hin).
      apply in_map_iff in Hin. destruct Hin as (ij & E & Hij).
      inversion E; subst. clear E.
      destruct (positions_ordered deck ij Hij) as (i & j & -> & Hi & Hj).
      apply in_map_iff in Hdeck. destruct Hdeck as ([k m] & <- & Hkm).
      simpl in *. rewrite (lookup_entry P k m Hdict Hkm).
      rewrite Forall_forall in Hnn. specialize (Hnn _ Hkm). simpl in Hnn.
      rewrite Forall_forall in Hpos.
      assert (Forall (fun c => (1 <= c)%Z) k) as Hk
        by (apply Hpos; apply in_map_iff; now exists (k, m)).
      pose proof (tokens_ge_length k Hk) as Hlen.
      rewrite Forall_forall in Hk.
      assert (1 <= item k i)%Z as Hci
        by (apply Hk; unfold item, len in *; apply nth_In; lia).
      assert (1 <= item k j)%Z as Hcj
        by (apply Hk; unfold item, len in *; apply nth_In; lia).
      rewrite sum_tokens.
      assert (0 < inject_Z (tokens k))%Q by (rewrite <- (Zlt_Qlt 0); lia).
      assert (0 < inject_Z (tokens k - 1))%Q by (rewrite <- (Zlt_Qlt 0); lia).
      assert (0 < inject_Z (item k i))%Q by (rewrite <- (Zlt_Qlt 0); lia).
      assert (0 < inject_Z (item k j))%Q by (rewrite <- (Zlt_Qlt 0); lia).
      qc_unfold.
      repeat apply Qmult_le_0_compat; try apply Qinv_le_0_compat; lra.
  - rewrite (total_play_turn P Hdict), total_sum.
    rewrite Qcmult_comm, <- Qcsum_scale.
    rewrite <- (map_map snd (fun p => half * p)), !map_map.
    apply Qcsum_le. intros [k p] Hin. simpl.
    rewrite Forall_forall in Hnn. specialize (Hnn _ Hin). simpl in Hnn.
    rewrite Forall_forall in Hpos.
    destruct (win_share_bounds k) as [_ Hw].
    { apply Hpos. apply in_map_iff. now exists (k, p). }
    rewrite (Qcmult_comm half p), !(Qcmult_comm p).
    now apply Qcmult_le_compat_r.
Qed.

(** ** One turn against the specification's sum over pairs of positions *)

Lemma ordered_pairs_sum (f : list Z -> Qc) (l : list Z) :
  ForallOrdPairs Z.lt l ->
  Qcsum (map f (combinations l 2))
  = Qcsum (map (fun i =>
      Qcsum (map (fun j => if (i <? j)%Z then f [i; j] else 0) l)) l).
Proof.
  induction 1 as [|x t Hx Ht IH].
  - reflexivity.
  - rewrite combinations_two_cons, map_app, Qcsum_app, map_map, IH.
    rewrite Forall_forall in Hx.
    cbn [map Qcsum fold_right]. rewrite Z.ltb_irrefl, Qcplus_0_l.
    fold (Qcsum (map (fun j => if (x <? j)%Z then f [x; j] else 0) t)).
    f_equal.
    + apply Qcsum_ext_in. intros j Hj.
      destruct (Z.ltb_spec x j) as [_|Hxj]; [reflexivity|].
      specialize (Hx j Hj). lia.
    + apply Qcsum_ext_in. intros i Hi.
      destruct (Z.ltb_spec i x) as [Hix|_]; [specialize (Hx i Hi); lia|].
      now rewrite Qcplus_0_l.
Qed.

Lemma weight_pair_mass (P : PDist) (deck : AbDeck) (i j : Z) :
  weight P deck [i; j] = pair_mass (lookup P deck) deck i j.
Proof.
  unfold weight, pair_mass, Qcdiv. rewrite sum_tokens. ring.
Qed.

Lemma lookup_contributions (P : PDist) (keys : list AbDeck) (key : AbDeck) :
  Qcsum (map (fun kv => if deck_eq_dec (fst kv) key then snd kv else 0)
    (flat_map (fun deck =>
                 map (fun ij => (remove deck ij, weight P deck ij))
                     (combinations (range (len deck)) 2)) keys))
  = Qcsum (map (fun deck =>
      Qcsum (map (fun i =>
        Qcsum (map (fun j =>
          if (i <? j)%Z then
            if deck_eq_dec (remove deck [i; j]) key
            then pair_mass (lookup P deck) deck i j else 0
          else 0) (range (len deck)))) (range (len deck)))) keys).
Proof.
  induction keys as [|deck keys IH]; simpl.
  - reflexivity.
  - rewrite map_app, Qcsum_app, IH, map_map. f_equal. simpl.
    rewrite (ordered_pairs_sum
               (fun ij => if deck_eq_dec (remove deck ij) key
                          then weight P deck ij else 0))
      by apply range_ascending.
    apply Qcsum_ext_in. intros i _. apply Qcsum_ext_in. intros j _.
    now rewrite weight_pair_mass.
Qed.

Lemma in_combinations_seq (a n i j : nat) :
  (a <= i < j)%nat -> (j < a + n)%nat ->
  In [Z.of_nat i; Z.of_nat j] (combinations (map Z.of_nat (seq a n)) 2).
Proof.
  revert a. induction n as [|n IH]; intros a Hij Hj.
  - lia.
  - cbn [seq map]. rewrite combinations_two_cons. apply in_or_app.
    destruct (Nat.eq_dec i a) as [->|Hia].
    + left. apply in_map_iff. exists (Z.of_nat j). split; [reflexivity|].
      apply in_map. apply in_seq. lia.
    + right. apply IH; lia.
Qed.

Lemma in_positions (deck : AbDeck) (i j : Z) :
  (0 <= i < j)%Z -> (j < len deck)%Z ->
  In [i; j] (combinations (range (len deck)) 2).
Proof.
  intros Hij Hj. rewrite range_len. unfold len in Hj.
  replace i with (Z.of_nat (Z.to_nat i)) by lia.
  replace j with (Z.of_nat (Z.to_nat j)) by lia.
  apply in_combinations_seq; lia.
Qed.

Lemma keys_contributions (P : PDist) (key : AbDeck) :
  In key (map fst (contributions P)) <-> successor P key.
Proof.
  unfold contributions, successor. rewrite in_map_iff. split.
  - intros ([k p] & <- & Hin).
    apply in_flat_map in Hin. destruct Hin as (deck & Hdeck & Hin).
    apply in_map_iff in Hin. destruct Hin as (ij & E & Hij).
    inversion E; subst.
    destruct (positions_ordered deck ij Hij) as (i & j & -> & Hi & Hj).
    now exists deck, i, j.
  - intros (deck & i & j & Hdeck & Hij & Hj & ->).
    exists (remove deck [i; j], weight P deck [i; j]). split; [reflexivity|].
    apply in_flat_map. exists deck. split; [exact Hdeck|].
    apply in_map_iff. exists [i; j]. split; [reflexivity|].
    now apply in_positions.
Qed.

(** ** The brute-force oracle *)

Lemma getitem_cons (x : Z) (l : list Z) (i : Z) :
  (0 <= i)%Z -> getitem (x :: l) (i + 1) = getitem l i.
Proof.
  intros Hi. unfold getitem. cbv zeta.
  assert ((i <? 0)%Z = false) as -> by (apply Z.ltb_ge; lia).
  assert ((i + 1 <? 0)%Z = false) as -> by (apply Z.ltb_ge; lia).
  assert ((i <? 0)%Z = false) as -> by (apply Z.ltb_ge; lia).
  assert ((i + 1 <? 0)%Z = false) as -> by (apply Z.ltb_ge; lia).
  replace (Z.to_nat (i + 1)) with (S (Z.to_nat i)) by lia. reflexivity.
Qed.

Lemma range3_pairs (n : nat) :
  range3 0 (Z.of_nat (2 * n)) 2 = map (fun k => (2 * Z.of_nat k)%Z) (seq 0 n).
Proof.
  unfold range3.
  replace (Z.to_nat ((Z.of_nat (2 * n) - 0 + 2 - 1) / 2)) with n.
  - apply map_ext. intros k. lia.
  - replace (Z.of_nat (2 * n) - 0 + 2 - 1)%Z with (1 + Z.of_nat n * 2)%Z by lia.
    rewrite Z.div_add by lia. change (1 / 2)%Z with 0%Z. lia.
Qed.

Lemma all_gen_ext {A : Type} (f g : A -> result bool) (l : list A) :
  (forall x, In x l -> f x = g x) -> all_gen f l = all_gen g l.
Proof.
  induction l as [|x l IH]; intros H; simpl.
  - reflexivity.
  - rewrite (H x (or_introl eq_refl)).
    destruct (g x) as [[|]|e]; simpl; try reflexivity.
    apply IH. intros y Hy. apply H. now right.
Qed.

Lemma all_gen_map {A B : Type} (f : B -> result bool) (h : A -> B) (l : list A) :
  all_gen f (map h l) = all_gen (fun x => f (h x)) l.
Proof.
  induction l as [|x l IH]; simpl; [reflexivity|].
  destruct (f (h x)) as [[|]|e]; simpl; auto.
Qed.

Lemma sweep_pairs_spec (n : nat) (deck : Deck) :
  length deck = (2 * n)%nat -> sweep deck = Ok (sweep_pairs deck).
Proof.
  revert deck. induction n as [|n IH]; intros deck Hlen.
  - destruct deck; [reflexivity | discriminate].
  - destruct deck as [|a [|b rest]]; try (simpl in Hlen; lia).
    assert (length rest = (2 * n)%nat) as Hrest by (simpl in Hlen; lia).
    specialize (IH rest Hrest). unfold sweep, len in *.
    rewrite Hlen. rewrite Hrest in IH.
    rewrite range3_pairs in *. rewrite all_gen_map in *.
    cbn [seq all_gen]. rewrite <- seq_shift, all_gen_map.
    change (getitem (a :: b :: rest) (2 * Z.of_nat 0)) with (Ok a).
    change (getitem (a :: b :: rest) (2 * Z.of_nat 0 + 1)) with (Ok b).
    cbn [bind sweep_pairs]. destruct (a >? b)%Z; [|reflexivity].
    cbn [andb]. rewrite <- IH. apply all_gen_ext. intros k _.
    replace (2 * Z.of_nat (S k))%Z with (2 * Z.of_nat k + 1 + 1)%Z by lia.
    rewrite !getitem_cons by lia. reflexivity.
Qed.

Lemma picks_rest_length {A : Type} (l : list A) (p : A * list A) :
  In p (picks l) -> S (length (snd p)) = length l.
Proof.
  revert p. induction l as [|x l IH]; intros p Hp; simpl in Hp.
  - destruct Hp.
  - destruct Hp as [<-|Hp]; [reflexivity|].
    apply in_map_iff in Hp. destruct Hp as (q & <- & Hq). simpl.
    now rewrite (IH q Hq).
Qed.

Lemma picks_length {A : Type} (l : list A) : length (picks l) = length l.
Proof.
  induction l as [|x l IH]; simpl; [reflexivity|].
  now rewrite length_map, IH.
Qed.

Lemma perms_length_each {A : Type} (n : nat) (l p : list A) :
  In p (perms_of_length n l) -> length p = n.
Proof.
  revert l p. induction n as [|n IH]; intros l p Hp; simpl in Hp.
  - destruct Hp as [<-|[]]. reflexivity.
  - apply in_flat_map in Hp. destruct Hp as (q & _ & Hp).
    apply in_map_iff in Hp. destruct Hp as (p' & <- & Hp').
    simpl. f_equal. eapply IH. exact Hp'.
Qed.

Lemma flat_map_len {A B : Type} (f : A -> list B) (c : Z) (l : list A) :
  (forall x, In x l -> len (f x) = c) -> len (flat_map f l) = (len l * c)%Z.
Proof.
  unfold len. induction l as [|x l IH]; intros H; cbn [flat_map length].
  - reflexivity.
  - rewrite length_app, Nat2Z.inj_add, (H x (or_introl eq_refl)).
    rewrite IH by (intros y Hy; apply H; now right). lia.
Qed.

Lemma perms_count {A : Type} (n : nat) (l : list A) :
  length l = n -> len (perms_of_length n l) = factorial n.
Proof.
  revert l. induction n as [|n IH]; intros l Hl.
  - reflexivity.
  - cbn [perms_of_length factorial].
    rewrite (flat_map_len _ (factorial n)).
    + unfold len. now rewrite picks_length, Hl.
    + intros p Hp. unfold len. rewrite length_map. apply IH.
      apply picks_rest_length in Hp. lia.
Qed.

Lemma factorial_pos (n : nat) : (0 < factorial n)%Z.
Proof. induction n as [|n IH]; cbn [factorial]; lia. Qed.

Lemma Zsum_app (l1 l2 : list Z) : Zsum (l1 ++ l2) = (Zsum l1 + Zsum l2)%Z.
Proof.
  unfold Zsum. induction l1 as [|x l1 IH]; simpl; [reflexivity|].
  rewrite IH. lia.
Qed.

Lemma count_true_flat_map {A B : Type} (g : B -> bool) (f : A -> list B)
    (l : list A) :
  count_true (map g (flat_map f l))
  = Zsum (map (fun x => count_true (map g (f x))) l).
Proof.
  unfold count_true. induction l as [|x l IH]; simpl; [reflexivity|].
  rewrite !map_app, Zsum_app, IH. reflexivity.
Qed.

Lemma map_flat_map_cons {A B : Type} (a : B) (f : A -> list (list B))
    (l : list A) :
  map (cons a) (flat_map f l) = flat_map (fun x => map (cons a) (f x)) l.
Proof.
  induction l as [|x l IH]; simpl; [reflexivity|].
  now rewrite map_app, IH.
Qed.

Lemma count_true_guard {A : Type} (c : bool) (g : A -> bool) (l : list A) :
  count_true (map (fun x => c && g x) l)
  = if c then count_true (map g l) else 0%Z.
Proof.
  destruct c; simpl.
  - reflexivity.
  - unfold count_true. induction l as [|x l IH]; simpl; [reflexivity|].
    exact IH.
Qed.

Lemma count_perms (n : nat) (deck : Deck) :
  count_true (map sweep_pairs (perms_of_length (2 * n) deck))
  = count_sweeps n deck.
Proof.
  revert deck. induction n as [|n IH]; intros deck.
  - reflexivity.
  - replace (2 * S n)%nat with (S (S (2 * n))) by lia.
    cbn [perms_of_length count_sweeps].
    rewrite count_true_flat_map. f_equal. apply map_ext. intros p.
    rewrite map_flat_map_cons, count_true_flat_map. f_equal.
    apply map_ext. intros q. rewrite !map_map.
    cbn [sweep_pairs]. rewrite count_true_guard, IH. reflexivity.
Qed.

Lemma Qcsum_bools (bs : list bool) :
  Qcsum (map of_bool bs) = of_int (count_true bs).
Proof.
  unfold count_true. induction bs as [|b bs IH].
  - reflexivity.
  - cbn [map Qcsum fold_right Zsum]. fold (Qcsum (map of_bool bs)).
    fold (Zsum (map (fun b : bool => if b then 1%Z else 0%Z) bs)).
    rewrite of_int_add, IH. destruct b; reflexivity.
Qed.

Lemma mean_bools (bs : list bool) :
  bs <> [] ->
  mean (map of_bool bs) = Ok (of_int (count_true bs) / of_int (len bs)).
Proof.
  intros Hbs. destruct bs as [|b bs]; [contradiction|].
  unfold mean. cbn [map]. f_equal.
  change (of_bool b :: map of_bool bs) with (map of_bool (b :: bs)).
  rewrite fold_left_Qcplus, Qcsum_bools, Qcplus_0_l.
  unfold len. now rewrite length_map.
Qed.

(** On a deck that deals out in pairs the oracle returns the fraction of
    sweeps among its orderings. *)
Lemma p_sweeps_fraction (deck : Deck) :
  Nat.even (length deck) = true ->
  p_sweeps (permutations deck) = Ok (sweep_fraction deck).
Proof.
  intros Heven. apply Nat.even_spec in Heven.
  pose proof (Nat.Even_double _ Heven) as Hlen. unfold Nat.double in Hlen.
  set (n := Nat.div2 (length deck)) in *.
  assert (length deck = (2 * n)%nat) as Hlen2 by lia.
  unfold p_sweeps, permutations.
  rewrite (mapM_pure sweep sweep_pairs).
  - cbn [bind].
    assert (len (perms_of_length (length deck) deck) = factorial (length deck))
      as Hcount by now apply perms_count.
    rewrite mean_bools.
    + unfold sweep_fraction. fold n. unfold len, Deck in *.
      rewrite length_map, Hcount. rewrite Hlen2 at 1.
      now rewrite count_perms.
    + intros E. apply (f_equal (@length bool)) in E.
      rewrite length_map in E. unfold len, Deck in *. simpl in E.
      rewrite E in Hcount. pose proof (factorial_pos (length deck)). lia.
  - intros p Hp. apply (sweep_pairs_spec n).
    apply perms_length_each in Hp. lia.
Qed.

(** ** Iterated turns *)

Lemma play_pair_keys (P : PDist) (deck : AbDeck) (n : Z) (P1 P1' : PDist)
    (ij : list Z) :
  Forall canonical (map fst P1) -> play_pair P deck n P1 ij = Ok P1' ->
  Forall canonical (map fst P1').
Proof.
  intros HP1 H. unfold play_pair in H.
  destruct ij as [|i [|j [|k ij]]]; try discriminate.
  destruct (getitem deck i) as [di|]; simpl in H; [|discriminate].
  destruct (fdiv _ _) as [x|]; simpl in H; [|discriminate].
  destruct (getitem deck j) as [dj|]; simpl in H; [|discriminate].
  destruct (fdiv _ _) as [y|]; simpl in H; [|discriminate].
  inversion H; subst. apply Forall_forall. intros k Hk.
  apply keys_add in Hk. destruct Hk as [->|Hk].
  - auto with canon.
  - rewrite Forall_forall in HP1. now apply HP1.
Qed.

Lemma play_turn_keys (P P1 : PDist) :
  play_turn P = Ok P1 -> Forall canonical (map fst P1).
Proof.
  unfold play_turn.
  apply (foldM_invariant (fun acc => Forall canonical (map fst acc))).
  - intros acc deck acc' Hacc. unfold play_deck.
    apply (foldM_invariant (fun acc => Forall canonical (map fst acc))).
    + intros a ij a' Ha. now apply play_pair_keys.
    + exact Hacc.
  - constructor.
Qed.

Lemma iter_turns_last (t : nat) (P : PDist) :
  iter_turns (S t) P = (P' <- iter_turns t P ;; play_turn P').
Proof.
  revert P. induction t as [|t IH]; intros P.
  - simpl. destruct (play_turn P); reflexivity.
  - change (iter_turns (S (S t)) P)
      with (P1 <- play_turn P ;; iter_turns (S t) P1).
    cbn [iter_turns]. destruct (play_turn P) as [P1|e]; simpl; [|reflexivity].
    apply IH.
Qed.

Lemma iter_turns_distribution (t : nat) (P : PDist) :
  distribution P ->
  exists Pt, iter_turns t P = Ok Pt /\ distribution Pt /\ total Pt <= total P.
Proof.
  revert P. induction t as [|t IH]; intros P HP.
  - exists P. repeat split; try apply HP. apply Qcle_refl.
  - destruct (play_turn_half P HP) as (P1 & E1 & HP1 & Hle).
    destruct (IH P1 HP1) as (Pt & Et & HPt & Hlet).
    exists Pt. simpl. rewrite E1. simpl. repeat split; try apply HPt; auto.
    eapply Qcle_trans; [exact Hlet|].
    eapply Qcle_trans; [exact Hle|].
    apply half_le. apply total_nonneg. apply HP.
Qed.

Lemma foldM_iter_turns {A : Type} (l : list A) (P : PDist) :
  foldM (fun P' _ => play_turn P') l P = iter_turns (length l) P.
Proof.
  revert P. induction l as [|x l IH]; intros P; simpl.
  - reflexivity.
  - destruct (play_turn P); simpl; auto.
Qed.

Lemma play_turns_iter (deck : AbDeck) :
  play_turns deck = iter_turns (Z.to_nat (sum deck / 2)) [(deck, 1)].
Proof.
  unfold play_turns, turns. rewrite foldM_iter_turns.
  unfold range. now rewrite length_map, length_seq.
Qed.

Lemma singleton_distribution (deck : AbDeck) :
  canonical deck -> distribution [(deck, 1)].
Proof.
  intros Hdeck. split; [|split].
  - unfold dict. simpl. constructor; [intros [] | constructor].
  - simpl. constructor; [exact Hdeck | constructor].
  - constructor; [|constructor]. simpl. qc_unfold. lra.
Qed.

Lemma total_singleton (deck : AbDeck) : total [(deck, 1)] = 1.
Proof. unfold total. simpl. apply Qcplus_0_l. Qed.

Lemma p_sweep_bounds (deck : AbDeck) :
  canonical deck -> exists p, p_sweep deck = Ok p /\ 0 <= p /\ p <= 1.
Proof.
  intros Hdeck. unfold p_sweep. rewrite play_turns_iter.
  destruct (iter_turns_distribution (Z.to_nat (sum deck / 2)) [(deck, 1)])
    as (Pt & E & HPt & Hle); [now apply singleton_distribution|].
  exists (total Pt). rewrite E. simpl. repeat split.
  - apply total_nonneg. apply HPt.
  - now rewrite total_singleton in Hle.
Qed.

(** A single-rank deck has no pair of positions. *)
Lemma single_rank_contributions (P : PDist) :
  Forall single_rank (map fst P) -> contributions P = [].
Proof.
  unfold contributions. induction 1 as [|deck keys Hdeck Hkeys IH]; simpl.
  - reflexivity.
  - rewrite IH, app_nil_r. unfold len. rewrite Hdeck. reflexivity.
Qed.

(** ** Small configurations *)

Lemma returns_spec (r : result Qc) (p : Qc) : returns r p = true -> r = Ok p.
Proof.
  destruct r as [q|e]; simpl; intros H; [|discriminate].
  f_equal. apply Qc_is_canon. now apply Qeq_bool_iff.
Qed.

Lemma small_even_configs_agree :
  forallb (fun rs => returns (p_sweep_config (fst rs) (snd rs))
                             (sweep_fraction (make_deck (fst rs) (snd rs))))
          small_even_configs = true.
Proof. vm_compute. reflexivity. Qed.

Lemma in_small_even_configs (r s : Z) :
  (1 <= r)%Z -> (1 <= s)%Z -> (r * s <= 10)%Z -> Z.even (r * s) = true ->
  In (r, s) small_even_configs.
Proof.
  intros Hr Hs Hrs Heven. unfold small_even_configs. apply filter_In. split.
  - apply in_prod; apply in_map_iff.
    + exists (r - 1)%Z. split; [lia|]. apply in_range. nia.
    + exists (s - 1)%Z. split; [lia|]. apply in_range. nia.
  - simpl. rewrite Heven, andb_true_r. apply Z.leb_le. exact Hrs.
Qed.

Lemma make_deck_length (ranks suits : Z) :
  length (make_deck ranks suits) = (Z.to_nat ranks * Z.to_nat suits)%nat.
Proof.
  unfold make_deck.
  assert (forall l : list Z,
    length (flat_map (fun r => map (fun _ => (r + 1)%Z) (range suits)) l)
    = (length l * Z.to_nat suits)%nat) as H.
  { induction l as [|x l IH]; simpl; [reflexivity|].
    rewrite length_app, IH, length_map. unfold range.
    now rewrite length_map, length_seq. }
  rewrite H. unfold range. now rewrite length_map, length_seq.
Qed.

Lemma p_sweep_no_turn (deck : AbDeck) :
  (sum deck <= 1)%Z -> p_sweep deck = Ok 1.
Proof.
  intros Hsum. unfold p_sweep, play_turns, turns.
  rewrite range_nonpos.
  - simpl. now rewrite total_singleton.
  - assert (sum deck / 2 < 1)%Z by (apply Z.div_lt_upper_bound; lia). lia.
Qed.

(** ** Worked values of the notebook *)

(** The values below are the exact ones; the notebook prints their float
    approximations. *)

Example make_deck_4_2 : make_deck 4 2 = [1; 1; 2; 2; 3; 3; 4; 4]%Z.
Proof. reflexivity. Qed.

Example make_abdeck_standard :
  make_abdeck 13 4 = Ok [4; 4; 4; 4; 4; 4; 4; 4; 4; 4; 4; 4; 4]%Z.
Proof. reflexivity. Qed.

Example p_sweeps_8_1 : p_sweeps_config 8 1 = Ok (1 / of_int 16).
Proof. apply returns_spec. vm_compute. reflexivity. Qed.

Example p_sweeps_4_2 : p_sweeps_config 4 2 = Ok (1 / of_int 28).
Proof. apply returns_spec. vm_compute. reflexivity. Qed.

Example p_sweep_scenarios :
  p_sweep_config 2 1 = Ok (1 / of_int 2) /\
  p_sweep_config 4 1 = Ok (1 / of_int 4) /\
  p_sweep_config 2 2 = Ok (1 / of_int 6) /\
  p_sweep_config 8 1 = Ok (1 / of_int 16) /\
  p_sweep_config 4 2 = Ok (1 / of_int 28).
Proof. repeat split; apply returns_spec; vm_compute; reflexivity. Qed.

(** In exact arithmetic the first turn of the 52-card deck keeps 24/51 of
    the mass, on one state. *)
Example standard_deck_turn_1 :
  exists P,
    iter_turns 1 [(repeat 4%Z 13, 1)] = Ok P /\
    map fst P = [[3; 3; 4; 4; 4; 4; 4; 4; 4; 4; 4; 4; 4]%Z] /\
    total P = of_int 24 / of_int 51.
Proof.
  eexists. split; [vm_compute; reflexivity|]. split; [reflexivity|].
  apply Qc_is_canon. vm_compute. reflexivity.
Qed.

(** The second turn reaches three states, in the order of the loops. *)
Example standard_deck_turn_2 :
  exists P,
    iter_turns 2 [(repeat 4%Z 13, 1)] = Ok P /\
    map (fun e => (fst e, this (snd e))) P =
      [([2; 2; 4; 4; 4; 4; 4; 4; 4; 4; 4; 4; 4]%Z, (36 # 20825)%Q);
       ([2; 3; 3; 4; 4; 4; 4; 4; 4; 4; 4; 4; 4]%Z, (1056 # 20825)%Q);
       ([3; 3; 3; 3; 4; 4; 4; 4; 4; 4; 4; 4; 4]%Z, (704 # 4165)%Q)].
Proof.
  eexists. split; [vm_compute; reflexivity|]. vm_compute. reflexivity.
Qed.

(** On a state with a zero count the division by [n - 1] raises. *)
Example play_turn_zero_count :
  play_turn [([0; 1]%Z, 1)] = Raise ZeroDivisionError.
Proof. vm_compute. reflexivity. Qed.

(** * The claims *)

Ltac canonical_tac := split; repeat constructor; lia.

Ltac float_range_tac :=
  repeat constructor; cbn [fst snd]; vm_compute; discriminate.

(** ** C1: the abstract computation against the brute-force oracle *)

(** C1, as stated, fails on a deck with an odd number of cards.  With three
    cards of distinct ranks [p_sweep] returns 1/2 while [p_sweeps] raises
    [IndexError]: dealing the ordering (2, 1, 3) wins the first pair and
    then reads [deck[3]], past the end of the deck.  The two computations
    return no common value. *)
Lemma oracle_raises_on_odd_deck :
  p_sweep_config 3 1 = Ok half /\
  p_sweeps_config 3 1 = Raise IndexError /\
  ~ (exists p, p_sweep_config 3 1 = Ok p /\ p_sweeps_config 3 1 = Ok p).
Proof.
  assert (p_sweeps_config 3 1 = Raise IndexError) as Horacle
    by (vm_compute; reflexivity).
  split; [|split].
  - apply returns_spec. vm_compute. reflexivity.
  - exact Horacle.
  - intros (p & _ & H). rewrite Horacle in H. discriminate H.
Qed.

(** C1, amended: for every configuration whose deck has an even number of
    cards, at most 10, [p_sweep(make_abdeck(ranks, suits))] and
    [p_sweeps(permutations(make_deck(ranks, suits)))] both return, and
    return the same rational number. *)
Theorem oracle_equivalence (ranks suits : Z) :
  Nat.even (length (make_deck ranks suits)) = true ->
  (length (make_deck ranks suits) <= 10)%nat ->
  exists p,
    p_sweep_config ranks suits = Ok p /\ p_sweeps_config ranks suits = Ok p.
Proof.
  intros Heven Hlen. exists (sweep_fraction (make_deck ranks suits)).
  split; [|now apply p_sweeps_fraction].
  rewrite make_deck_length in Heven, Hlen.
  destruct (Z_le_gt_dec ranks 0) as [Hr|Hr];
    [|destruct (Z_le_gt_dec suits 0) as [Hs|Hs]].
  - assert (make_deck ranks suits = []) as ->
      by (apply length_zero_iff_nil; rewrite make_deck_length; lia).
    unfold p_sweep_config, make_abdeck.
    replace (Z.to_nat ranks) with O by lia.
    apply returns_spec. vm_compute. reflexivity.
  - assert (make_deck ranks suits = []) as ->
      by (apply length_zero_iff_nil; rewrite make_deck_length; lia).
    unfold p_sweep_config, make_abdeck. cbn [bind].
    rewrite p_sweep_no_turn
      by (rewrite sum_tokens, tokens_repeat; nia).
    apply returns_spec. vm_compute. reflexivity.
  - assert (Z.to_nat ranks * Z.to_nat suits = Z.to_nat (ranks * suits))%nat
      as E by (rewrite Z2Nat.inj_mul; lia).
    rewrite E in Heven, Hlen.
    assert (In (ranks, suits) small_even_configs) as Hin.
    { apply in_small_even_configs; try lia.
      apply Nat.even_spec in Heven. destruct Heven as [k Hk].
      apply Z.even_spec. exists (Z.of_nat k). nia. }
    pose proof small_even_configs_agree as Hall.
    rewrite forallb_forall in Hall.
    apply returns_spec. exact (Hall (ranks, suits) Hin).
Qed.

Lemma oracle_equivalence_witness :
  Nat.even (length (make_deck 5 2)) = true /\
  (length (make_deck 5 2) <= 10)%nat /\
  exists p, p_sweep_config 5 2 = Ok p /\ p_sweeps_config 5 2 = Ok p.
Proof.
  assert (Nat.even (length (make_deck 5 2)) = true) as Heven by reflexivity.
  assert (length (make_deck 5 2) <= 10)%nat as Hlen by (vm_compute; lia).
  exact (conj Heven (conj Hlen (oracle_equivalence 5 2 Heven Hlen))).
Defined.

(** ** C2: one turn *)

(** C2: on a dict [P] whose keys are canonical states, within the float
    range, [play_turn(P)] returns a dict [P1] in which the mass of every
    state [key] is the sum, over the entries [(state, mass)] of [P] and
    the pairs of positions of [state], of
    [mass × state[i]/n × state[j]/(n-1)] for the pairs with [i < j] and
    [remove(state, i, j) = key] and of nothing for the other pairs; and
    the keys of [P1] are exactly the states reached that way. *)
Theorem play_turn_spec (P : PDist) :
  dict P -> Forall canonical (map fst P) -> in_float_range P ->
  exists P1,
    play_turn P = Ok P1 /\ dict P1 /\
    (forall key, lookup P1 key = turn_mass P key) /\
    (forall key, In key (map fst P1) <-> successor P key).
Proof.
  intros Hdict Hcan _. exists (add_all (contributions P) []).
  split; [|split; [|split]].
  - apply play_turn_contributions. now apply distribution_positive.
  - apply dict_add_all. constructor.
  - intros key. rewrite lookup_add_all. unfold contributions.
    rewrite lookup_contributions. cbn [lookup]. rewrite Qcplus_0_l.
    unfold turn_mass. rewrite map_map. apply Qcsum_ext_in.
    intros [k p] Hin. cbn [fst snd].
    now rewrite (lookup_entry P k p Hdict Hin).
  - intros key. rewrite keys_add_all, keys_contributions. simpl. tauto.
Qed.

Lemma play_turn_spec_witness :
  dict [([1; 1; 2]%Z, 1)] /\
  Forall canonical (map fst [([1; 1; 2]%Z, 1)]) /\
  in_float_range [([1; 1; 2]%Z, 1)] /\
  exists P1,
    play_turn [([1; 1; 2]%Z, 1)] = Ok P1 /\ dict P1 /\
    (forall key, lookup P1 key = turn_mass [([1; 1; 2]%Z, 1)] key) /\
    (forall key, In key (map fst P1) <-> successor [([1; 1; 2]%Z, 1)] key).
Proof.
  assert (dict [([1; 1; 2]%Z, 1)]) as Hdict
    by (unfold dict; simpl; constructor; [intros [] | constructor]).
  assert (Forall canonical (map fst [([1; 1; 2]%Z, 1)])) as Hcan
    by (simpl; constructor; [canonical_tac | constructor]).
  assert (in_float_range [([1; 1; 2]%Z, 1)]) as Hrange by float_range_tac.
  exact (conj Hdict (conj Hcan (conj Hrange
    (play_turn_spec _ Hdict Hcan Hrange)))).
Defined.

(** ** C3: removing one token from each of two ranks *)

(** C3: for a canonical state and positions [i < j] of it,
    [remove(state, i, j)] is the state obtained by decrementing the count
    at [i], decrementing the count at [j], dropping the non-positive
    entries and sorting; it is canonical, and it is the only canonical
    state with that multiset of counts. *)
Theorem remove_decrements_pair (state : AbDeck) (i j : nat) :
  canonical state -> (i < j)%nat -> (j < length state)%nat ->
  remove state [Z.of_nat i; Z.of_nat j] = remove_pair state i j /\
  canonical (remove state [Z.of_nat i; Z.of_nat j]) /\
  (forall state',
      canonical state' ->
      Permutation state'
        (filter (fun c => (0 <? c)%Z) (decrease 1 (decrease 1 state i) j)) ->
      state' = remove state [Z.of_nat i; Z.of_nat j]).
Proof.
  intros _ Hij Hj.
  assert (remove state [Z.of_nat i; Z.of_nat j] = remove_pair state i j) as E
    by (apply remove_two; lia).
  split; [exact E|]. split; [auto with canon|].
  intros state' Hcan Hperm. rewrite E. unfold remove_pair.
  now apply canonicalize_unique.
Qed.

Lemma remove_decrements_pair_witness :
  canonical [1; 2; 2; 4]%Z /\ (1 < 3)%nat /\ (3 < length [1; 2; 2; 4]%Z)%nat /\
  remove [1; 2; 2; 4]%Z [Z.of_nat 1; Z.of_nat 3] = remove_pair [1; 2; 2; 4]%Z 1 3 /\
  remove_pair [1; 2; 2; 4]%Z 1 3 = [1; 1; 2; 3]%Z.
Proof.
  assert (canonical [1; 2; 2; 4]%Z) as Hcan by canonical_tac.
  assert (1 < 3)%nat as Hij by lia.
  assert (3 < length [1; 2; 2; 4]%Z)%nat as Hj by (simpl; lia).
  exact (conj Hcan (conj Hij (conj Hj
    (conj (proj1 (remove_decrements_pair _ 1 3 Hcan Hij Hj)) eq_refl)))).
Defined.

(** ** C4: the canonical-state invariant *)



(** ** C5: the mass never grows *)

(** C5: on a distribution (a dict from canonical states to non-negative
    masses) within the float range [play_turn] returns a distribution
    whose total is at most the total it started from; and along the
    distributions [P_0 = {deck: 1}], [P_1], ... that [p_sweep] goes
    through from a canonical [deck] of at most [float_max] tokens, every
    [P_(t+1) = play_turn(P_t)] has a total at most that of [P_t]. *)
Theorem monotonic_mass_loss (P : PDist) (deck : AbDeck) :
  distribution P -> in_float_range P ->
  canonical deck -> (sum deck <= float_max)%Z ->
  (exists P1, play_turn P = Ok P1 /\ total P1 <= total P) /\
  (forall t, exists Pt Pt',
      iter_turns t [(deck, 1)] = Ok Pt /\
      play_turn Pt = Ok Pt' /\
      iter_turns (S t) [(deck, 1)] = Ok Pt' /\
      total Pt' <= total Pt) /\
  play_turns deck = iter_turns (Z.to_nat (sum deck / 2)) [(deck, 1)].
Proof.
  intros HP _ Hdeck _.
  assert (forall Q, distribution Q ->
            exists Q1, play_turn Q = Ok Q1 /\ total Q1 <= total Q) as Hstep.
  { intros Q HQ. destruct (play_turn_half Q HQ) as (Q1 & E & _ & Hle).
    exists Q1. split; [exact E|].
    eapply Qcle_trans; [exact Hle|]. apply half_le, total_nonneg, HQ. }
  split; [now apply Hstep|]. split; [|apply play_turns_iter].
  intros t.
  destruct (iter_turns_distribution t _ (singleton_distribution _ Hdeck))
    as (Pt & Et & HPt & _).
  destruct (Hstep Pt HPt) as (Pt' & E' & Hle).
  exists Pt, Pt'. repeat split; auto.
  rewrite iter_turns_last, Et. exact E'.
Qed.

Lemma monotonic_mass_loss_witness :
  distribution [([1; 1; 2]%Z, 1)] /\ in_float_range [([1; 1; 2]%Z, 1)] /\
  canonical [4; 4; 4]%Z /\ (sum [4; 4; 4]%Z <= float_max)%Z /\
  exists P1, play_turn [([1; 1; 2]%Z, 1)] = Ok P1 /\
             total P1 <= total [([1; 1; 2]%Z, 1)].
Proof.
  assert (distribution [([1; 1; 2]%Z, 1)]) as HP
    by (apply singleton_distribution; canonical_tac).
  assert (in_float_range [([1; 1; 2]%Z, 1)]) as Hrange by float_range_tac.
  assert (canonical [4; 4; 4]%Z) as Hdeck by canonical_tac.
  assert (sum [4; 4; 4]%Z <= float_max)%Z as Hmax
    by (vm_compute; discriminate).
  exact (conj HP (conj Hrange (conj Hdeck (conj Hmax
    (proj1 (monotonic_mass_loss _ _ HP Hrange Hdeck Hmax)))))).
Defined.

(** ** C6: the result is a probability *)



(** ** C7: [make_abdeck] validates nothing *)




(** ** C8: [p_sweep] on an odd number of tokens *)

(** C8, as stated, fails: on the state (1, 1, 1), of three tokens,
    [p_sweep] raises no error; it plays one turn and returns 1/2. *)
Lemma p_sweep_accepts_odd_total :
  sum [1; 1; 1]%Z = 3%Z /\
  p_sweep [1; 1; 1]%Z = Ok half /\
  ~ (exists e, p_sweep [1; 1; 1]%Z = Raise e).
Proof.
  assert (p_sweep [1; 1; 1]%Z = Ok half) as E
    by (apply returns_spec; vm_compute; reflexivity).
  split; [reflexivity|]. split; [exact E|].
  intros [e He]. rewrite E in He. discriminate He.
Qed.

(** C8, amended: on a canonical state with an odd number of tokens, at
    most [float_max], [p_sweep] raises no error: the number of turns is
    the floor of half the total, [(total - 1) / 2], every one of these
    turns succeeds, and [p_sweep] returns the total mass they leave. *)
Theorem p_sweep_odd_total (deck : AbDeck) :
  canonical deck -> Z.Odd (sum deck) -> (sum deck <= float_max)%Z ->
  exists P,
    iter_turns (Z.to_nat ((sum deck - 1) / 2)) [(deck, 1)] = Ok P /\
    p_sweep deck = Ok (total P).
Proof.
  intros Hdeck [k Hk] _.
  assert (sum deck / 2 = (sum deck - 1) / 2)%Z as Hturns.
  { rewrite Hk. replace (2 * k + 1 - 1)%Z with (k * 2)%Z by lia.
    rewrite Z.div_mul by lia.
    replace (2 * k + 1)%Z with (1 + k * 2)%Z by lia.
    rewrite Z.div_add by lia. reflexivity. }
  destruct (iter_turns_distribution (Z.to_nat ((sum deck - 1) / 2))
              _ (singleton_distribution _ Hdeck)) as (P & E & _ & _).
  exists P. split; [exact E|].
  unfold p_sweep. now rewrite play_turns_iter, Hturns, E.
Qed.

Lemma p_sweep_odd_total_witness :
  canonical [1; 1; 1]%Z /\ Z.Odd (sum [1; 1; 1]%Z) /\
  (sum [1; 1; 1]%Z <= float_max)%Z /\
  exists P,
    iter_turns (Z.to_nat ((sum [1; 1; 1]%Z - 1) / 2)) [([1; 1; 1]%Z, 1)] = Ok P /\
    p_sweep [1; 1; 1]%Z = Ok (total P).
Proof.
  assert (canonical [1; 1; 1]%Z) as Hcan by canonical_tac.
  assert (Z.Odd (sum [1; 1; 1]%Z)) as Hodd by (exists 1%Z; reflexivity).
  assert (sum [1; 1; 1]%Z <= float_max)%Z as Hmax
    by (vm_compute; discriminate).
  exact (conj Hcan (conj Hodd (conj Hmax
    (p_sweep_odd_total _ Hcan Hodd Hmax)))).
Defined.

(** ** C9: the mass strictly decreases *)




(** ** C10: [remove] with a repeated index *)

(** C10: for every state and every position [i] of it,
    [remove(state, i, i)] is the canonical form of the state with the
    count at [i] decreased by 2 (the entry is dropped when that leaves
    nothing positive); and every pair of positions that [play_turn] passes
    to [remove] has [i < j], so [play_turn] never repeats an index. *)
Theorem remove_repeated_index (state : AbDeck) (i : nat) :
  (i < length state)%nat ->
  remove state [Z.of_nat i; Z.of_nat i] = canonicalize (decrease 2 state i) /\
  canonical (remove state [Z.of_nat i; Z.of_nat i]) /\
  (forall (deck : AbDeck) (ij : list Z),
      In ij (combinations (range (len deck)) 2) ->
      exists a b, ij = [a; b] /\ (0 <= a < b)%Z /\ (b < len deck)%Z).
Proof.
  intros Hi. split; [|split].
  - rewrite remove_two by exact Hi. now rewrite decrease_twice.
  - auto with canon.
  - apply positions_ordered.
Qed.

Lemma remove_repeated_index_witness :
  (1 < length [1; 2; 3]%Z)%nat /\
  remove [1; 2; 3]%Z [Z.of_nat 1; Z.of_nat 1]
    = canonicalize (decrease 2 [1; 2; 3]%Z 1) /\
  canonicalize (decrease 2 [1; 2; 3]%Z 1) = [1; 3]%Z.
Proof.
  assert (1 < length [1; 2; 3]%Z)%nat as Hi by (simpl; lia).
  exact (conj Hi (conj (proj1 (remove_repeated_index _ 1 Hi)) eq_refl)).
Defined.

(** * Further properties of the code *)

(** ** [make_deck] and [make_abdeck] *)

Lemma map_const_repeat {A B : Type} (c : B) (l : list A) :
  map (fun _ => c) l = repeat c (length l).
Proof. induction l as [|x l IH]; simpl; [reflexivity | now rewrite IH]. Qed.

Lemma make_deck_blocks (ranks suits : Z) :
  make_deck ranks suits
  = flat_map (fun r => repeat (r + 1)%Z (Z.to_nat suits)) (range ranks).
Proof.
  unfold make_deck. apply flat_map_ext. intros r.
  rewrite map_const_repeat. unfold range. now rewrite length_map, length_seq.
Qed.

Lemma Sorted_app_le (l1 l2 : list Z) :
  Sorted Z.le l1 -> Sorted Z.le l2 ->
  (forall x y, In x l1 -> In y l2 -> (x <= y)%Z) ->
  Sorted Z.le (l1 ++ l2).
Proof.
  intros H1 H2 H. induction H1 as [|a l1 Hl1 IH Ha]; simpl.
  - exact H2.
  - constructor.
    + apply IH. intros x y Hx Hy. apply H; [now right | exact Hy].
    + destruct l1 as [|b l1]; simpl.
      * destruct l2 as [|c l2]; constructor.
        apply H; now left.
      * constructor. now inversion Ha.
Qed.

Lemma blocks_sorted (n a k : nat) :
  Sorted Z.le
    (flat_map (fun r => repeat (r + 1)%Z n) (map Z.of_nat (seq a k))) /\
  Forall (fun x => (Z.of_nat a + 1 <= x)%Z)
    (flat_map (fun r => repeat (r + 1)%Z n) (map Z.of_nat (seq a k))).
Proof.
  revert a. induction k as [|k IH]; intros a; cbn [seq map flat_map].
  - split; constructor.
  - destruct (IH (S a)) as [Hs Hf]. rewrite Forall_forall in Hf. split.
    + apply Sorted_app_le; [|exact Hs|].
      * clear. induction n as [|n IHn]; simpl; constructor; [exact IHn|].
        destruct n; simpl; constructor. lia.
      * intros x y Hx Hy. apply repeat_spec in Hx. subst x.
        specialize (Hf y Hy). lia.
    + apply Forall_forall. intros x Hx. apply in_app_or in Hx.
      destruct Hx as [Hx|Hx].
      * apply repeat_spec in Hx. lia.
      * specialize (Hf x Hx). lia.
Qed.

Lemma blocks_count (n a k : nat) (v : Z) :
  count_occ Z.eq_dec
    (flat_map (fun r => repeat (r + 1)%Z n) (map Z.of_nat (seq a k))) v
  = if ((Z.of_nat a + 1 <=? v) && (v <=? Z.of_nat a + Z.of_nat k))%Z
    then n else O.
Proof.
  revert a. induction k as [|k IH]; intros a; cbn [seq map flat_map].
  - simpl. destruct (Z.leb_spec (Z.of_nat a + 1) v), (Z.leb_spec v (Z.of_nat a + 0));
      simpl; try reflexivity; lia.
  - rewrite count_occ_app, IH.
    destruct (Z.eq_dec v (Z.of_nat a + 1)) as [E|E].
    + rewrite count_occ_repeat_eq by exact E.
      destruct (Z.leb_spec (Z.of_nat (S a) + 1) v); [lia|].
      destruct (Z.leb_spec (Z.of_nat a + 1) v); [|lia].
      destruct (Z.leb_spec v (Z.of_nat a + Z.of_nat (S k))); [|lia].
      simpl. lia.
    + rewrite count_occ_repeat_neq by exact E.
      destruct (Z.leb_spec (Z.of_nat (S a) + 1) v),
        (Z.leb_spec v (Z.of_nat (S a) + Z.of_nat k)),
        (Z.leb_spec (Z.of_nat a + 1) v),
        (Z.leb_spec v (Z.of_nat a + Z.of_nat (S k)));
        simpl; try reflexivity; lia.
Qed.

(** X1: [make_deck(ranks, suits)] has [max(0, ranks) × max(0, suits)]
    cards, in ascending order, and holds every rank from 1 to [ranks]
    exactly [max(0, suits)] times and no other rank. *)
Theorem make_deck_shape (ranks suits : Z) :
  len (make_deck ranks suits) = (Z.max 0 ranks * Z.max 0 suits)%Z /\
  Sorted Z.le (make_deck ranks suits) /\
  (forall v,
      count (make_deck ranks suits) v =
      if ((1 <=? v) && (v <=? ranks))%Z then Z.max 0 suits else 0%Z).
Proof.
  split; [|split].
  - unfold len. rewrite make_deck_length. lia.
  - rewrite make_deck_blocks. unfold range. apply blocks_sorted.
  - intros v. unfold count. rewrite make_deck_blocks. unfold range.
    rewrite blocks_count. change (Z.of_nat 0 + 1)%Z with 1%Z.
    destruct (Z.leb_spec 1 v); simpl; [|reflexivity].
    destruct (Z.leb_spec v (Z.of_nat (Z.to_nat ranks))),
      (Z.leb_spec v ranks); lia.
Qed.



(** ** [sweep] and [p_sweeps] on decks of any length *)

Lemma range3_step (n : nat) :
  range3 0 (Z.of_nat (S (S n))) 2
  = 0%Z :: map (fun i => (i + 2)%Z) (range3 0 (Z.of_nat n) 2).
Proof.
  unfold range3.
  replace (Z.to_nat ((Z.of_nat (S (S n)) - 0 + 2 - 1) / 2))
    with (S (Z.to_nat ((Z.of_nat n - 0 + 2 - 1) / 2))).
  - cbn [seq map]. f_equal. rewrite <- seq_shift, !map_map.
    apply map_ext. intros k. lia.
  - replace (Z.of_nat (S (S n)) - 0 + 2 - 1)%Z
      with ((Z.of_nat n - 0 + 2 - 1) + 1 * 2)%Z by lia.
    rewrite Z.div_add by lia.
    assert (0 <= (Z.of_nat n - 0 + 2 - 1) / 2)%Z
      by (apply Z.div_pos; lia).
    lia.
Qed.

Lemma range3_nonneg (n : nat) (i : Z) :
  In i (range3 0 (Z.of_nat n) 2) -> (0 <= i)%Z.
Proof.
  unfold range3. intros Hi. apply in_map_iff in Hi.
  destruct Hi as (k & <- & _). lia.
Qed.

Lemma sweep_cons2 (a b : Z) (rest : Deck) :
  sweep (a :: b :: rest) = if (a >? b)%Z then sweep rest else Ok false.
Proof.
  unfold sweep, len. cbn [length]. rewrite range3_step. cbn [all_gen].
  change (getitem (a :: b :: rest) 0) with (Ok a).
  change (getitem (a :: b :: rest) (0 + 1)) with (Ok b).
  cbn [bind]. destruct (a >? b)%Z; [|reflexivity].
  rewrite all_gen_map. apply all_gen_ext. intros i Hi.
  apply range3_nonneg in Hi.
  replace (i + 2)%Z with (i + 1 + 1)%Z by lia.
  replace (i + 1 + 1 + 1)%Z with ((i + 1) + 1 + 1)%Z by lia.
  rewrite !getitem_cons by lia. reflexivity.
Qed.

Lemma pair_induction (P : list Z -> Prop) :
  P [] -> (forall x, P [x]) ->
  (forall a b rest, P rest -> P (a :: b :: rest)) ->
  forall l, P l.
Proof.
  intros Hnil Hone Hstep l.
  assert (P l /\ forall x, P (x :: l)) as [H _]; [|exact H].
  induction l as [|y l [IH1 IH2]].
  - split; [exact Hnil | exact Hone].
  - split; [apply IH2|]. intros x. now apply Hstep.
Qed.

Lemma sweep_pairs_wins (deck : Deck) :
  sweep_pairs deck = true <-> wins_every_pair deck.
Proof.
  induction deck as [| x | a b rest IH] using pair_induction.
  - split; [|reflexivity]. intros _ k Hk. simpl in Hk. lia.
  - split; [|reflexivity]. intros _ k Hk. simpl in Hk. lia.
  - cbn [sweep_pairs]. rewrite andb_true_iff, IH, Z.gtb_lt.
    unfold wins_every_pair. split.
    + intros [Hab Hrest] [|k] Hk.
      * exact Hab.
      * replace (2 * S k + 1)%nat with (S (S (2 * k + 1))) by lia.
        replace (2 * S k)%nat with (S (S (2 * k))) by lia.
        apply Hrest. simpl in Hk. lia.
    + intros H. split.
      * apply (H O). simpl. lia.
      * intros k Hk. specialize (H (S k)).
        replace (2 * S k + 1)%nat with (S (S (2 * k + 1))) in H by lia.
        replace (2 * S k)%nat with (S (S (2 * k))) in H by lia.
        apply H. simpl. lia.
Qed.

Lemma sweep_by_parity (deck : Deck) :
  sweep deck =
  if Nat.even (length deck) then Ok (sweep_pairs deck)
  else if sweep_pairs deck then Raise IndexError else Ok false.
Proof.
  induction deck as [| x | a b rest IH] using pair_induction.
  - reflexivity.
  - reflexivity.
  - rewrite sweep_cons2, IH. cbn [length sweep_pairs].
    change (Nat.even (S (S (length rest)))) with (Nat.even (length rest)).
    destruct (a >? b)%Z; cbn [andb]; [reflexivity|].
    now destruct (Nat.even (length rest)).
Qed.

(** X3: on a deck with an even number of cards [sweep] raises nothing,
    and returns [True] exactly when the first card of every dealt pair is
    greater than the second. *)
Theorem sweep_even_length (deck : Deck) :
  Nat.even (length deck) = true ->
  exists b, sweep deck = Ok b /\ (b = true <-> wins_every_pair deck).
Proof.
  intros Heven. exists (sweep_pairs deck).
  rewrite sweep_by_parity, Heven. split; [reflexivity|].
  apply sweep_pairs_wins.
Qed.

Lemma sweep_even_length_witness :
  Nat.even (length [3; 2; 2; 1]%Z) = true /\
  exists b, sweep [3; 2; 2; 1]%Z = Ok b /\
            (b = true <-> wins_every_pair [3; 2; 2; 1]%Z).
Proof.
  assert (Nat.even (length [3; 2; 2; 1]%Z) = true) as Heven by reflexivity.
  exact (conj Heven (sweep_even_length _ Heven)).
Defined.

(** X4: on a deck with an odd number of cards [sweep] never returns
    [True]: it raises [IndexError] when every whole pair is won (the last
    card has no partner), and returns [False] otherwise, without reading
    past the first lost pair. *)
Theorem sweep_odd_length (deck : Deck) :
  Nat.even (length deck) = false ->
  (wins_every_pair deck -> sweep deck = Raise IndexError) /\
  (~ wins_every_pair deck -> sweep deck = Ok false) /\
  sweep deck <> Ok true.
Proof.
  intros Hodd. rewrite sweep_by_parity, Hodd.
  pose proof (sweep_pairs_wins deck) as Hiff.
  destruct (sweep_pairs deck).
  - split; [reflexivity|]. split; [|discriminate].
    intros H. exfalso. apply H. now apply Hiff.
  - split; [|split; [reflexivity | discriminate]].
    intros H. apply Hiff in H. discriminate H.
Qed.

Lemma sweep_odd_length_witness :
  Nat.even (length [2; 1; 3]%Z) = false /\
  sweep [2; 1; 3]%Z <> Ok true.
Proof.
  assert (Nat.even (length [2; 1; 3]%Z) = false) as Hodd by reflexivity.
  exact (conj Hodd (proj2 (proj2 (sweep_odd_length _ Hodd)))).
Defined.

Lemma count_true_bounds (bs : list bool) :
  (0 <= count_true bs <= len bs)%Z.
Proof.
  unfold count_true, len. induction bs as [|b bs IH].
  - simpl. lia.
  - cbn [map Zsum fold_right length].
    fold (Zsum (map (fun b : bool => if b then 1%Z else 0%Z) bs)).
    destruct b; lia.
Qed.

Lemma fraction_bounds (c n : Z) :
  (0 <= c <= n)%Z -> (0 < n)%Z ->
  0 <= of_int c / of_int n /\ of_int c / of_int n <= 1 /\
  of_int c / of_int n * of_int n = of_int c.
Proof.
  intros Hc Hn.
  assert (0 < inject_Z n)%Q as Hn' by (rewrite <- (Zlt_Qlt 0); lia).
  assert (0 <= inject_Z c)%Q as Hc0 by (rewrite <- (Zle_Qle 0); lia).
  assert (inject_Z c <= inject_Z n)%Q as Hcn by (rewrite <- Zle_Qle; lia).
  split; [|split].
  - qc_unfold. apply Qle_shift_div_l; [exact Hn' | lra].
  - qc_unfold. apply Qle_shift_div_r; [exact Hn' | lra].
  - field. apply of_int_nonzero. lia.
Qed.

(** X5: on a non-empty list of decks that all have an even number of
    cards [p_sweeps] returns the fraction of the decks that sweep, a number
    between 0 and 1; on the empty list it raises [StatisticsError]. *)
Theorem p_sweeps_even_decks (decks : list Deck) :
  Forall (fun deck => Nat.even (length deck) = true) decks ->
  match decks with
  | [] => p_sweeps decks = Raise StatisticsError
  | _ =>
      exists p,
        p_sweeps decks = Ok p /\ 0 <= p /\ p <= 1 /\
        p * of_int (len decks) = of_int (count_true (map sweep_pairs decks))
  end.
Proof.
  intros Heven. destruct decks as [|d decks]; [reflexivity|].
  set (l := d :: decks) in *.
  assert (mapM sweep l = Ok (map sweep_pairs l)) as Hmap.
  { apply mapM_pure. intros deck Hdeck. rewrite Forall_forall in Heven.
    rewrite sweep_by_parity. now rewrite (Heven deck Hdeck). }
  assert (0 < len l)%Z as Hlen by (unfold len, l; simpl; lia).
  pose proof (count_true_bounds (map sweep_pairs l)) as Hc.
  unfold len in Hc. rewrite length_map in Hc. fold (len l) in Hc.
  destruct (fraction_bounds _ _ Hc Hlen) as (H0 & H1 & Hmul).
  exists (of_int (count_true (map sweep_pairs l)) / of_int (len l)).
  unfold p_sweeps. rewrite Hmap. cbn [bind].
  rewrite mean_bools by (unfold l; discriminate).
  unfold len at 1. rewrite length_map. fold (len l). auto.
Qed.

Lemma p_sweeps_even_decks_witness :
  Forall (fun deck => Nat.even (length deck) = true)
         [[2; 1]%Z; [1; 2]%Z] /\
  exists p,
    p_sweeps [[2; 1]%Z; [1; 2]%Z] = Ok p /\ 0 <= p /\ p <= 1 /\
    p * of_int (len [[2; 1]%Z; [1; 2]%Z])
    = of_int (count_true (map sweep_pairs [[2; 1]%Z; [1; 2]%Z])).
Proof.
  assert (Forall (fun deck => Nat.even (length deck) = true)
                 [[2; 1]%Z; [1; 2]%Z]) as H by (repeat constructor).
  exact (conj H (p_sweeps_even_decks _ H)).
Defined.

Lemma mapM_raise {A B : Type} (f : A -> result B) (e : exn) (l : list A) :
  (forall x e', In x l -> f x = Raise e' -> e' = e) ->
  (exists x, In x l /\ f x = Raise e) ->
  mapM f l = Raise e.
Proof.
  induction l as [|y l IH]; intros Hall (x & Hx & Hfx).
  - destruct Hx.
  - cbn [mapM]. destruct (f y) as [b|e'] eqn:E; cbn [bind].
    + rewrite IH; [reflexivity | |].
      * intros z e'' Hz. apply Hall. now right.
      * destruct Hx as [->|Hx]; [congruence|]. now exists x.
    + f_equal. apply (Hall y); [now left | exact E].
Qed.

(** X6: an exception of [sweep] passes through [p_sweeps]: as soon as one
    deck of the list has an odd number of cards and wins every whole pair,
    [p_sweeps] raises [IndexError], whatever the other decks are. *)
Theorem p_sweeps_odd_deck (decks : list Deck) (deck : Deck) :
  In deck decks -> Nat.even (length deck) = false -> wins_every_pair deck ->
  p_sweeps decks = Raise IndexError.
Proof.
  intros Hin Hodd Hwins. unfold p_sweeps.
  rewrite (mapM_raise sweep IndexError); [reflexivity | |].
  - intros d e _ Hd. rewrite sweep_by_parity in Hd.
    destruct (Nat.even (length d)); [discriminate|].
    destruct (sweep_pairs d); [now inversion Hd | discriminate].
  - exists deck. split; [exact Hin|].
    rewrite sweep_by_parity, Hodd.
    apply sweep_pairs_wins in Hwins. now rewrite Hwins.
Qed.

Lemma p_sweeps_odd_deck_witness :
  In [2; 1; 3]%Z [[2; 1]%Z; [2; 1; 3]%Z] /\
  Nat.even (length [2; 1; 3]%Z) = false /\
  wins_every_pair [2; 1; 3]%Z /\
  p_sweeps [[2; 1]%Z; [2; 1; 3]%Z] = Raise IndexError.
Proof.
  assert (In [2; 1; 3]%Z [[2; 1]%Z; [2; 1; 3]%Z]) as Hin
    by (right; left; reflexivity).
  assert (Nat.even (length [2; 1; 3]%Z) = false) as Hodd by reflexivity.
  assert (wins_every_pair [2; 1; 3]%Z) as Hwins
    by (apply sweep_pairs_wins; reflexivity).
  exact (conj Hin (conj Hodd (conj Hwins
    (p_sweeps_odd_deck _ _ Hin Hodd Hwins)))).
Defined.

(** ** The oracle on decks of any even size *)

Lemma picks_permutation {A : Type} (l : list A) (p : A * list A) :
  In p (picks l) -> Permutation (fst p :: snd p) l.
Proof.
  revert p. induction l as [|x l IH]; intros p Hp; simpl in Hp.
  - destruct Hp.
  - destruct Hp as [<-|Hp]; [reflexivity|].
    apply in_map_iff in Hp. destruct Hp as (q & <- & Hq). simpl.
    rewrite perm_swap. apply perm_skip. now apply IH.
Qed.

Lemma perms_permutation {A : Type} (n : nat) (l p : list A) :
  length l = n -> In p (perms_of_length n l) -> Permutation p l.
Proof.
  revert l p. induction n as [|n IH]; intros l p Hl Hp; simpl in Hp.
  - destruct Hp as [<-|[]]. apply length_zero_iff_nil in Hl. now subst.
  - apply in_flat_map in Hp. destruct Hp as (q & Hq & Hp).
    apply in_map_iff in Hp. destruct Hp as (p' & <- & Hp').
    rewrite <- (picks_permutation l q Hq). apply perm_skip.
    apply IH; [|exact Hp']. apply picks_rest_length in Hq. lia.
Qed.

(** X7: for a deck with an even number [n] of cards, of any size,
    [permutations] lists [n!] orderings, each a rearrangement of the deck,
    and [p_sweeps] on them raises nothing and returns the fraction of the
    orderings that sweep, a number between 0 and 1. *)
Theorem oracle_on_even_deck (deck : Deck) :
  Nat.even (length deck) = true ->
  len (permutations deck) = factorial (length deck) /\
  (forall p, In p (permutations deck) -> Permutation p deck) /\
  exists q,
    p_sweeps (permutations deck) = Ok q /\ 0 <= q /\ q <= 1 /\
    q * of_int (factorial (length deck))
    = of_int (count_true (map sweep_pairs (permutations deck))).
Proof.
  intros Heven.
  assert (len (permutations deck) = factorial (length deck)) as Hcount
    by (apply perms_count; reflexivity).
  split; [exact Hcount|]. split.
  - intros p. now apply perms_permutation.
  - assert (mapM sweep (permutations deck)
            = Ok (map sweep_pairs (permutations deck))) as Hmap.
    { apply mapM_pure. intros p Hp. rewrite sweep_by_parity.
      apply perms_length_each in Hp. now rewrite Hp, Heven. }
    pose proof (factorial_pos (length deck)) as Hpos.
    pose proof (count_true_bounds (map sweep_pairs (permutations deck))) as Hc.
    assert (Z.of_nat (length (permutations deck)) = factorial (length deck))
      as Hcount' by exact Hcount.
    unfold len, Deck in *. rewrite length_map, Hcount' in Hc.
    destruct (fraction_bounds _ _ Hc Hpos) as (H0 & H1 & Hmul).
    exists (of_int (count_true (map sweep_pairs (permutations deck)))
            / of_int (factorial (length deck))).
    unfold p_sweeps. unfold Deck. rewrite Hmap. cbn [bind].
    rewrite mean_bools.
    + unfold len, Deck. rewrite length_map, Hcount'. auto.
    + intros E. apply (f_equal (@length bool)) in E.
      rewrite length_map in E. unfold Deck in *. rewrite E in Hcount'.
      simpl in Hcount'. lia.
Qed.

Lemma oracle_on_even_deck_witness :
  Nat.even (length (make_deck 13 4)) = true /\
  len (permutations (make_deck 13 4)) = factorial (length (make_deck 13 4)).
Proof.
  assert (Nat.even (length (make_deck 13 4)) = true) as Heven by reflexivity.
  exact (conj Heven (proj1 (oracle_on_even_deck _ Heven))).
Defined.

(** ** Every turn takes two tokens *)

Lemma tokens_perm (l l' : list Z) : Permutation l l' -> tokens l = tokens l'.
Proof.
  unfold tokens. induction 1; simpl; lia.
Qed.

Lemma tokens_filter_positive (l : list Z) :
  Forall (fun c => (0 <= c)%Z) l ->
  tokens (filter (fun c => (0 <? c)%Z) l) = tokens l.
Proof.
  unfold tokens. induction 1 as [|c l Hc Hl IH]; simpl; [reflexivity|].
  destruct (Z.ltb_spec 0 c); simpl; lia.
Qed.

Lemma tokens_canonicalize (l : list Z) :
  Forall (fun c => (0 <= c)%Z) l -> tokens (canonicalize l) = tokens l.
Proof.
  intros H. unfold canonicalize.
  rewrite <- (tokens_perm _ _ (sorted_perm _)).
  now apply tokens_filter_positive.
Qed.

Lemma tokens_decrease (d : Z) (l : list Z) (i : nat) :
  (i < length l)%nat -> tokens (decrease d l i) = (tokens l - d)%Z.
Proof.
  unfold tokens. revert i. induction l as [|c l IH]; intros i Hi; simpl in Hi.
  - lia.
  - destruct i as [|i]; simpl; [lia|]. rewrite IH by lia. lia.
Qed.

Lemma decrease_pair_nonneg (l : list Z) (i j : nat) :
  Forall (fun c => (1 <= c)%Z) l ->
  (i < length l)%nat -> (j < length l)%nat -> i <> j ->
  Forall (fun c => (0 <= c)%Z) (decrease 1 (decrease 1 l i) j).
Proof.
  intros Hl Hi Hj Hij. apply Forall_forall. intros x Hx.
  destruct (In_nth _ _ 0%Z Hx) as (k & Hk & <-).
  rewrite !decrease_length in Hk.
  rewrite decrease_nth by (now rewrite decrease_length).
  rewrite decrease_nth by exact Hi.
  rewrite Forall_forall in Hl.
  assert (1 <= nth k l 0)%Z by (apply Hl, nth_In, Hk).
  destruct (Nat.eqb_spec k j), (Nat.eqb_spec k i); lia.
Qed.

Lemma remove_tokens (state : AbDeck) (i j : Z) :
  Forall (fun c => (1 <= c)%Z) state ->
  (0 <= i < j)%Z -> (j < len state)%Z ->
  tokens (remove state [i; j]) = (tokens state - 2)%Z.
Proof.
  intros Hpos Hij Hj. unfold len in Hj.
  replace i with (Z.of_nat (Z.to_nat i)) by lia.
  replace j with (Z.of_nat (Z.to_nat j)) by lia.
  rewrite remove_two by lia.
  rewrite tokens_canonicalize by (apply decrease_pair_nonneg; auto; lia).
  rewrite !tokens_decrease by (rewrite ?decrease_length; lia). lia.
Qed.

(** X8: removing the tokens at two distinct positions of a state with
    positive counts takes exactly two tokens away: the sum of the result
    is the sum of the state minus 2. *)
Theorem remove_takes_two_tokens (state : AbDeck) (i j : Z) :
  Forall (fun c => (1 <= c)%Z) state ->
  (0 <= i < j)%Z -> (j < len state)%Z ->
  sum (remove state [i; j]) = (sum state - 2)%Z.
Proof.
  intros Hpos Hij Hj. rewrite !sum_tokens. now apply remove_tokens.
Qed.

Lemma remove_takes_two_tokens_witness :
  Forall (fun c => (1 <= c)%Z) [1; 2; 4]%Z /\
  (0 <= 0 < 2)%Z /\ (2 < len [1; 2; 4]%Z)%Z /\
  sum (remove [1; 2; 4]%Z [0; 2]%Z) = (sum [1; 2; 4]%Z - 2)%Z.
Proof.
  assert (Forall (fun c => (1 <= c)%Z) [1; 2; 4]%Z) as Hpos
    by (repeat constructor; lia).
  assert (0 <= 0 < 2)%Z as Hij by lia.
  assert (2 < len [1; 2; 4]%Z)%Z as Hj by (vm_compute; reflexivity).
  exact (conj Hpos (conj Hij (conj Hj
    (remove_takes_two_tokens _ 0 2 Hpos Hij Hj)))).
Defined.

Lemma play_turn_tokens (N : Z) (P P1 : PDist) :
  Forall (fun k => canonical k /\ tokens k = N) (map fst P) ->
  play_turn P = Ok P1 ->
  Forall (fun k => canonical k /\ tokens k = (N - 2)%Z) (map fst P1).
Proof.
  intros HP E. rewrite Forall_forall in HP.
  rewrite play_turn_contributions in E.
  - inversion E; subst. clear E. apply Forall_forall. intros key Hkey.
    apply keys_add_all in Hkey. destruct Hkey as [[]|Hkey].
    apply keys_contributions in Hkey.
    destruct Hkey as (state & i & j & Hstate & Hij & Hj & ->).
    destruct (HP state Hstate) as [[Hpos _] HN].
    split; [apply remove_canonical|].
    rewrite remove_tokens by assumption. lia.
  - apply Forall_forall. intros k Hk. now destruct (HP k Hk) as [[H _] _].
Qed.

Lemma iter_turns_tokens (t : nat) (N : Z) (P Pt : PDist) :
  Forall (fun k => canonical k /\ tokens k = N) (map fst P) ->
  iter_turns t P = Ok Pt ->
  Forall (fun k => canonical k /\ tokens k = (N - 2 * Z.of_nat t)%Z)
         (map fst Pt).
Proof.
  revert N P. induction t as [|t IH]; intros N P HP E.
  - simpl in E. inversion E; subst.
    eapply Forall_impl; [|exact HP]. intros k [H1 H2]. split; [exact H1 | lia].
  - cbn [iter_turns] in E.
    destruct (play_turn P) as [P1|e] eqn:E1; cbn [bind] in E; [|discriminate].
    pose proof (play_turn_tokens N P P1 HP E1) as HP1.
    specialize (IH (N - 2)%Z P1 HP1 E).
    eapply Forall_impl; [|exact IH]. intros k [H1 H2]. split; [exact H1 | lia].
Qed.

(** X9: from a canonical deck of at most [float_max] tokens every number
    [t] of turns succeeds, and every state of the distribution after [t]
    turns is canonical and holds exactly [2 t] tokens less than the deck;
    once the deck is used up the distribution is empty. *)
Theorem turns_consume_tokens (deck : AbDeck) (t : nat) :
  canonical deck -> (sum deck <= float_max)%Z ->
  exists P,
    iter_turns t [(deck, 1)] = Ok P /\
    (forall key, In key (map fst P) ->
       canonical key /\ sum key = (sum deck - 2 * Z.of_nat t)%Z) /\
    ((sum deck < 2 * Z.of_nat t)%Z -> P = []).
Proof.
  intros Hdeck _.
  destruct (iter_turns_distribution t _ (singleton_distribution _ Hdeck))
    as (P & E & _ & _).
  assert (Forall (fun k => canonical k /\
                           tokens k = (tokens deck - 2 * Z.of_nat t)%Z)
                 (map fst P)) as Hkeys.
  { apply (iter_turns_tokens t _ [(deck, 1)]); [|exact E].
    simpl. constructor; [now split | constructor]. }
  rewrite Forall_forall in Hkeys.
  exists P. split; [exact E|]. split.
  - intros key Hkey. rewrite !sum_tokens. now apply Hkeys.
  - intros Hlt. destruct P as [|[k p] P]; [reflexivity|]. exfalso.
    destruct (Hkeys k (or_introl eq_refl)) as [[Hpos _] Hk].
    pose proof (tokens_nonneg k Hpos). rewrite sum_tokens in Hlt. lia.
Qed.

Lemma turns_consume_tokens_witness :
  canonical [4; 4; 4]%Z /\ (sum [4; 4; 4]%Z <= float_max)%Z /\
  exists P,
    iter_turns 2 [([4; 4; 4]%Z, 1)] = Ok P /\
    (forall key, In key (map fst P) ->
       canonical key /\ sum key = (sum [4; 4; 4]%Z - 2 * Z.of_nat 2)%Z) /\
    ((sum [4; 4; 4]%Z < 2 * Z.of_nat 2)%Z -> P = []).
Proof.
  assert (canonical [4; 4; 4]%Z) as Hcan by canonical_tac.
  assert (sum [4; 4; 4]%Z <= float_max)%Z as Hmax
    by (vm_compute; discriminate).
  exact (conj Hcan (conj Hmax (turns_consume_tokens _ 2 Hcan Hmax))).
Defined.

Lemma canonical_no_token (state : AbDeck) :
  canonical state -> tokens state = 0%Z -> state = [].
Proof.
  intros [Hpos _] H0. pose proof (tokens_ge_length state Hpos) as Hlen.
  unfold len in Hlen. destruct state; [reflexivity | cbn [length] in Hlen; lia].
Qed.

(** X10: when a canonical deck has an even number of tokens, at most
    [float_max], the distribution that [p_sweep] sums at the end holds no
    state but the empty deck, and [p_sweep] returns the mass of the empty
    deck. *)
Theorem final_distribution (deck : AbDeck) :
  canonical deck -> Z.Even (sum deck) -> (sum deck <= float_max)%Z ->
  exists P,
    play_turns deck = Ok P /\
    (forall key, In key (map fst P) -> key = []) /\
    p_sweep deck = Ok (lookup P []).
Proof.
  intros Hdeck [m Hm] _. rewrite play_turns_iter.
  set (t := Z.to_nat (sum deck / 2)).
  destruct (iter_turns_distribution t _ (singleton_distribution _ Hdeck))
    as (P & E & (Hdict & _) & _).
  assert (Forall (fun k => canonical k /\
                           tokens k = (tokens deck - 2 * Z.of_nat t)%Z)
                 (map fst P)) as Hkeys.
  { apply (iter_turns_tokens t _ [(deck, 1)]); [|exact E].
    simpl. constructor; [now split | constructor]. }
  rewrite Forall_forall in Hkeys.
  assert (tokens deck - 2 * Z.of_nat t = 0)%Z as Hzero.
  { pose proof (tokens_nonneg deck (proj1 Hdeck)) as Hnn.
    rewrite sum_tokens in Hm. unfold t. rewrite sum_tokens, Hm.
    rewrite (Z.mul_comm 2 m), Z.div_mul by lia. lia. }
  assert (forall key, In key (map fst P) -> key = []) as Hempty.
  { intros key Hkey. destruct (Hkeys key Hkey) as [Hcan Htok].
    apply canonical_no_token; [exact Hcan | lia]. }
  exists P. split; [exact E|]. split; [exact Hempty|].
  unfold p_sweep. rewrite play_turns_iter. fold t. rewrite E. cbn [bind].
  f_equal. destruct P as [|[k p] P].
  - reflexivity.
  - assert (k = []) as -> by (apply Hempty; now left).
    destruct P as [|[k' p'] P].
    + unfold total. simpl. apply Qcplus_0_l.
    + exfalso. assert (k' = []) as -> by (apply Hempty; right; now left).
      unfold dict in Hdict. simpl in Hdict. inversion Hdict as [|? ? Hnotin _].
      apply Hnotin. now left.
Qed.

Lemma final_distribution_witness :
  canonical [2; 2]%Z /\ Z.Even (sum [2; 2]%Z) /\
  (sum [2; 2]%Z <= float_max)%Z /\
  exists P,
    play_turns [2; 2]%Z = Ok P /\
    (forall key, In key (map fst P) -> key = []) /\
    p_sweep [2; 2]%Z = Ok (lookup P []).
Proof.
  assert (canonical [2; 2]%Z) as Hcan by canonical_tac.
  assert (Z.Even (sum [2; 2]%Z)) as Heven by (exists 2%Z; reflexivity).
  assert (sum [2; 2]%Z <= float_max)%Z as Hmax
    by (vm_compute; discriminate).
  exact (conj Hcan (conj Heven (conj Hmax
    (final_distribution _ Hcan Heven Hmax)))).
Defined.

(** ** When [play_turn] divides by zero *)

Lemma play_pair_weight_nonzero (P : PDist) (deck : AbDeck) (P1 : PDist)
    (ij : list Z) :
  sum deck <> 0%Z -> sum deck <> 1%Z ->
  In ij (combinations (range (len deck)) 2) ->
  play_pair P deck (sum deck) P1 ij
  = Ok (add P1 (remove deck ij) (weight P deck ij)).
Proof.
  intros H0 H1 Hij.
  destruct (positions_ordered deck ij Hij) as (i & j & -> & Hi & Hj).
  unfold play_pair, weight, fdiv.
  rewrite !getitem_item by lia. simpl.
  destruct (Qc_eq_dec (of_int (sum deck)) 0) as [E|_];
    [apply of_int_nonzero in E; [contradiction | lia]|].
  simpl.
  destruct (Qc_eq_dec (of_int (sum deck - 1)) 0) as [E|_];
    [apply of_int_nonzero in E; [contradiction | lia]|].
  reflexivity.
Qed.

Lemma play_deck_safe (P P1 : PDist) (key : AbDeck) :
  divides_by_zero key = false ->
  play_deck P P1 key
  = Ok (add_all (map (fun ij => (remove key ij, weight P key ij))
                     (combinations (range (len key)) 2)) P1).
Proof.
  intros Hsafe. unfold play_deck. rewrite add_all_map. simpl.
  apply foldM_pure. intros ij acc Hij.
  destruct (positions_ordered key ij Hij) as (i & j & _ & Hi & Hj).
  unfold divides_by_zero in Hsafe.
  destruct (Z.leb_spec 2 (len key)); [|lia]. simpl in Hsafe.
  apply orb_false_iff in Hsafe. destruct Hsafe as [H0 H1].
  apply Z.eqb_neq in H0, H1. now apply play_pair_weight_nonzero.
Qed.

Lemma play_deck_raises (P P1 : PDist) (key : AbDeck) :
  divides_by_zero key = true ->
  play_deck P P1 key = Raise ZeroDivisionError.
Proof.
  intros Hrisky. unfold divides_by_zero in Hrisky.
  apply andb_true_iff in Hrisky. destruct Hrisky as [Hlen Hsum].
  apply Z.leb_le in Hlen. unfold len in Hlen.
  destruct key as [|a [|b rest]]; try (simpl in Hlen; lia).
  unfold play_deck, len. cbn [length].
  rewrite range_of_nat. cbn [seq map]. rewrite combinations_two_cons.
  cbn [map app foldM]. unfold play_pair.
  change (getitem (a :: b :: rest) (Z.of_nat 0)) with (Ok a).
  change (getitem (a :: b :: rest) (Z.of_nat 1)) with (Ok b).
  cbn [bind]. unfold fdiv.
  apply orb_true_iff in Hsum. destruct Hsum as [H0|H1].
  - apply Z.eqb_eq in H0. rewrite H0.
    destruct (Qc_eq_dec (of_int 0) 0) as [_|N]; [reflexivity|].
    exfalso. apply N. reflexivity.
  - apply Z.eqb_eq in H1. rewrite H1.
    destruct (Qc_eq_dec (of_int 1) 0) as [E|_]; [discriminate E|].
    cbn [bind]. change (1 - 1)%Z with 0%Z.
    destruct (Qc_eq_dec (of_int 0) 0) as [_|N]; [reflexivity|].
    exfalso. apply N. reflexivity.
Qed.

Lemma play_keys_cases (P : PDist) (keys : list AbDeck) (acc : PDist) :
  foldM (play_deck P) keys acc =
  if existsb divides_by_zero keys then Raise ZeroDivisionError
  else Ok (add_all
             (flat_map (fun deck =>
                map (fun ij => (remove deck ij, weight P deck ij))
                    (combinations (range (len deck)) 2)) keys) acc).
Proof.
  revert acc. induction keys as [|key keys IH]; intros acc.
  - reflexivity.
  - cbn [foldM existsb flat_map].
    destruct (divides_by_zero key) eqn:E.
    + now rewrite play_deck_raises.
    + rewrite play_deck_safe by exact E. cbn [bind orb].
      rewrite IH. destruct (existsb divides_by_zero keys); [reflexivity|].
      now rewrite add_all_app.
Qed.

(** X11: on a distribution whose keys hold integers within the float
    range (the magnitudes of the entries of a key add up to less than
    [float_max]), [play_turn] raises exactly when some key has at least
    two entries and sums to 0 or to 1, and then it raises
    [ZeroDivisionError]; otherwise it returns, and every key of what it
    returns is canonical. *)
Theorem play_turn_division_by_zero (P : PDist) :
  Forall (fun key => (Zsum (map Z.abs key) < float_max)%Z) (map fst P) ->
  (existsb divides_by_zero (map fst P) = true ->
   play_turn P = Raise ZeroDivisionError) /\
  (existsb divides_by_zero (map fst P) = false ->
   exists P1, play_turn P = Ok P1 /\ Forall canonical (map fst P1)).
Proof.
  intros _. unfold play_turn. rewrite play_keys_cases.
  destruct (existsb divides_by_zero (map fst P)) eqn:E.
  - split; [reflexivity | discriminate].
  - split; [discriminate|]. intros _.
    eexists. split; [reflexivity|].
    apply play_turn_keys with (P := P).
    unfold play_turn. now rewrite play_keys_cases, E.
Qed.

Lemma play_turn_division_by_zero_witness :
  Forall (fun key => (Zsum (map Z.abs key) < float_max)%Z)
         (map fst [([0; 1]%Z, 1)]) /\
  existsb divides_by_zero (map fst [([0; 1]%Z, 1)]) = true /\
  play_turn [([0; 1]%Z, 1)] = Raise ZeroDivisionError.
Proof.
  assert (Forall (fun key => (Zsum (map Z.abs key) < float_max)%Z)
                 (map fst [([0; 1]%Z, 1)])) as Hrange
    by (repeat constructor).
  assert (existsb divides_by_zero (map fst [([0; 1]%Z, 1)]) = true) as H
    by reflexivity.
  exact (conj Hrange (conj H
    (proj1 (play_turn_division_by_zero _ Hrange) H))).
Defined.

Lemma iter_turns_canonical_keys (t : nat) (P : PDist) :
  Forall canonical (map fst P) -> exists Pt, iter_turns t P = Ok Pt.
Proof.
  revert P. induction t as [|t IH]; intros P HP.
  - now exists P.
  - cbn [iter_turns].
    rewrite play_turn_contributions by now apply distribution_positive.
    cbn [bind]. apply IH.
    apply play_turn_keys with (P := P).
    now apply play_turn_contributions, distribution_positive.
Qed.

(** X12: [p_sweep] raises nothing on a tuple of integers within the float
    range (their magnitudes add up to at most [float_max]), canonical or
    not: a first turn is played only when the sum is at least 2, so
    neither [n] nor [n - 1] is zero, and every later state is canonical. *)
Theorem p_sweep_never_raises (deck : AbDeck) :
  (Zsum (map Z.abs deck) <= float_max)%Z ->
  exists p, p_sweep deck = Ok p.
Proof.
  intros _. unfold p_sweep. rewrite play_turns_iter.
  destruct (Z.to_nat (sum deck / 2)) as [|t] eqn:Et.
  - eexists. reflexivity.
  - assert (2 <= sum deck)%Z as Hsum.
    { destruct (Z_lt_le_dec (sum deck) 2) as [Hlt|]; [|assumption].
      assert (sum deck / 2 < 1)%Z by (apply Z.div_lt_upper_bound; lia). lia. }
    assert (existsb divides_by_zero (map fst [(deck, 1)]) = false) as Hsafe.
    { cbn [map fst existsb]. unfold divides_by_zero.
      destruct (Z.eqb_spec (sum deck) 0); [lia|].
      destruct (Z.eqb_spec (sum deck) 1); [lia|].
      now rewrite andb_false_r. }
    cbn [iter_turns]. unfold play_turn at 1.
    rewrite play_keys_cases, Hsafe. cbn [bind].
    destruct (iter_turns_canonical_keys t
                (add_all (contributions [(deck, 1)]) [])) as [Pt E].
    + apply play_turn_keys with (P := [(deck, 1)]).
      unfold play_turn. now rewrite play_keys_cases, Hsafe.
    + unfold contributions in E. rewrite E. eexists. reflexivity.
Qed.

Lemma p_sweep_never_raises_witness :
  (Zsum (map Z.abs [-5; 7]%Z) <= float_max)%Z /\
  exists p, p_sweep [-5; 7]%Z = Ok p.
Proof.
  assert (Zsum (map Z.abs [-5; 7]%Z) <= float_max)%Z as Hrange
    by (vm_compute; discriminate).
  exact (conj Hrange (p_sweep_never_raises _ Hrange)).
Defined.

(** ** Decks with at most one rank *)

Lemma iter_turns_empty (t : nat) : iter_turns t [] = Ok [].
Proof. induction t as [|t IH]; [reflexivity | exact IH]. Qed.

(** X13: on a deck with at most one rank no turn can be won: [p_sweep]
    returns 1 when no turn is played (fewer than two tokens) and 0
    otherwise; the turns after the first run on the empty distribution. *)
Theorem p_sweep_single_rank (deck : AbDeck) :
  (length deck <= 1)%nat ->
  p_sweep deck = Ok (if (sum deck <=? 1)%Z then 1 else 0).
Proof.
  intros Hlen. destruct (Z.leb_spec (sum deck) 1) as [Hsum|Hsum].
  - now apply p_sweep_no_turn.
  - unfold p_sweep. rewrite play_turns_iter.
    destruct (Z.to_nat (sum deck / 2)) as [|t] eqn:Et.
    + assert (1 <= sum deck / 2)%Z by (apply Z.div_le_lower_bound; lia). lia.
    + cbn [iter_turns].
      assert (play_turn [(deck, 1)] = Ok []) as ->.
      { destruct deck as [|c [|c' rest]]; [reflexivity | reflexivity |].
        simpl in Hlen. lia. }
      cbn [bind]. now rewrite iter_turns_empty.
Qed.

Lemma p_sweep_single_rank_witness :
  (length [4]%Z <= 1)%nat /\
  p_sweep [4]%Z = Ok (if (sum [4]%Z <=? 1)%Z then 1 else 0).
Proof.
  assert (length [4]%Z <= 1)%nat as Hlen by (simpl; lia).
  exact (conj Hlen (p_sweep_single_rank _ Hlen)).
Defined.

(** ** [play_turn] keeps the distribution invariant *)

(** X18: [play_turn] maps a distribution within the float range to a
    distribution: the result has no repeated key (the mass of equal
    successor states is merged), its keys are canonical and its masses are
    not negative. *)
Theorem play_turn_distribution (P : PDist) :
  distribution P -> in_float_range P ->
  exists P1, play_turn P = Ok P1 /\ distribution P1.
Proof.
  intros HP _. destruct (play_turn_half P HP) as (P1 & E & HP1 & _).
  now exists P1.
Qed.

Lemma play_turn_distribution_witness :
  distribution [([4; 4; 4]%Z, 1)] /\ in_float_range [([4; 4; 4]%Z, 1)] /\
  exists P1, play_turn [([4; 4; 4]%Z, 1)] = Ok P1 /\ distribution P1.
Proof.
  assert (distribution [([4; 4; 4]%Z, 1)]) as HP
    by (apply singleton_distribution; canonical_tac).
  assert (in_float_range [([4; 4; 4]%Z, 1)]) as Hrange by float_range_tac.
  exact (conj HP (conj Hrange (play_turn_distribution _ HP Hrange))).
Defined.

(** ** The dict operations of [PDist] and the indexes of [remove] *)

Lemma lookup_absent (P : PDist) (k : AbDeck) :
  ~ In k (map fst P) -> lookup P k = 0.
Proof.
  induction P as [|[k0 q] P IH]; simpl; intros H; [reflexivity|].
  destruct (deck_eq_dec k k0) as [->|_]; [exfalso; apply H; now left|].
  apply IH. intros Hin. apply H. now right.
Qed.

(** X19: [P[k] += p] on a dict adds [p] to the mass read at [k] (0 when
    the key is absent) and to the total, changes the mass at no other key,
    and leaves the keys without repetition. *)
Theorem pdist_add_lookup (P : PDist) (k : AbDeck) (p : Qc) :
  dict P ->
  dict (add P k p) /\
  lookup (add P k p) k = lookup P k + p /\
  (forall k', k' <> k -> lookup (add P k p) k' = lookup P k') /\
  total (add P k p) = total P + p /\
  (~ In k (map fst P) -> lookup P k = 0 /\ lookup (add P k p) k = p).
Proof.
  intros Hdict. split; [now apply dict_add|]. split; [|split; [|split]].
  - rewrite lookup_add. destruct (deck_eq_dec k k); congruence.
  - intros k' Hk'. rewrite lookup_add.
    destruct (deck_eq_dec k k'); congruence.
  - apply total_add.
  - intros Habs. split; [now apply lookup_absent|].
    rewrite lookup_add. destruct (deck_eq_dec k k); [|congruence].
    rewrite lookup_absent by exact Habs. apply Qcplus_0_l.
Qed.

Lemma pdist_add_lookup_witness :
  dict [([1; 1]%Z, half)] /\
  lookup (add [([1; 1]%Z, half)] [2]%Z half) [2]%Z
  = lookup [([1; 1]%Z, half)] [2]%Z + half.
Proof.
  assert (dict [([1; 1]%Z, half)]) as Hdict
    by (unfold dict; simpl; constructor; [intros [] | constructor]).
  exact (conj Hdict (proj1 (proj2 (pdist_add_lookup _ [2]%Z half Hdict)))).
Defined.

Lemma canonicalize_canonical_state (state : AbDeck) :
  canonical state -> canonicalize state = state.
Proof.
  intros [Hpos Hsorted]. symmetry. apply canonicalize_unique.
  - now split.
  - rewrite forallb_filter_id; [reflexivity|].
    apply forallb_forall. intros c Hc. rewrite Forall_forall in Hpos.
    specialize (Hpos c Hc). apply Z.ltb_lt. lia.
Qed.

(** X20: an index that is not a position of the deck, negative or past
    the end, is ignored by [remove] and raises nothing: with only such
    indexes [remove] returns the canonical form of the deck, which for a
    canonical state is the state itself. *)
Theorem remove_ignores_foreign_indexes (deck : AbDeck) (indexes : list Z) :
  (forall i, In i indexes -> (i < 0)%Z \/ (len deck <= i)%Z) ->
  remove deck indexes = canonicalize deck /\
  (canonical deck -> remove deck indexes = deck).
Proof.
  intros Hforeign.
  assert (remove deck indexes = canonicalize deck) as E.
  { unfold remove, canonicalize. rewrite filter_gtb_ltb. do 2 f_equal.
    apply (nth_ext _ _ 0%Z 0%Z).
    - apply counts_length.
    - intros k Hk. rewrite counts_length in Hk.
      rewrite counts_nth by exact Hk. unfold count.
      rewrite (proj1 (count_occ_not_In Z.eq_dec indexes (Z.of_nat k))).
      + lia.
      + intros Hin. destruct (Hforeign _ Hin); unfold len in *; lia. }
  split; [exact E|]. intros Hcan. rewrite E.
  now apply canonicalize_canonical_state.
Qed.

Lemma remove_ignores_foreign_indexes_witness :
  (forall i, In i [-1; 3]%Z -> (i < 0)%Z \/ (len [1; 2; 2]%Z <= i)%Z) /\
  remove [1; 2; 2]%Z [-1; 3]%Z = canonicalize [1; 2; 2]%Z.
Proof.
  assert (forall i, In i [-1; 3]%Z -> (i < 0)%Z \/ (len [1; 2; 2]%Z <= i)%Z)
    as H.
  { intros i [<-|[<-|[]]]; [left; lia | right; vm_compute; discriminate]. }
  exact (conj H (proj1 (remove_ignores_foreign_indexes _ _ H))).
Defined.
